(** * Resource.Controller: the resource manager of the meta engine

    A shallow embedding of [src/plugins/Resource/Resource.Controller.js]
    and the properties of its registry, load accounting, synchronous
    queue and identifier generator.

    Modelling conventions.
    - A resource handle is a JavaScript object: it has an identity and
      mutable fields.  Handles live in a store ([heap]) indexed by
      references ([ref]); the registries hold references, never copies.
    - The plain objects [resources] and the per-type buckets are used as
      dictionaries.  [resources] and [resourcesInUse] are keyed by the
      numbers of [Resource.Type] and are finite maps.  A bucket is keyed
      by resource names, which are arbitrary strings: it is a finite map
      of own properties together with its prototype, because a read
      [subBuffer[name]] also sees the members every object inherits from
      [Object.prototype] ([constructor], [toString], ...).  An own entry
      is [Some r] for a handle, [None] for the [null] that [remove]
      stores; [null] and [undefined] are falsy, a handle and an inherited
      member are truthy.
    - A string is a sequence of code units, those of the model being the
      values of [ascii]; the code only compares them with the dot and
      the slash.
    - The counters are JavaScript numbers holding integers; they are
      modelled by [Z], which is exact as long as their magnitude stays
      below 2^53.
    - Calls that leave the controller ([console.warn], the channel's
      [emit], [meta.engine.onResourcesLoaded], a handle's [forceLoad]) are
      recorded, in order, in the list [effects].
    - The flags [meta.engine.isReady] and [meta.engine.isLoading] belong
      to the host; an operation that reads them receives their value at
      the time of the call. *)

From Stdlib Require Import ZArith Lia Permutation Sorted Ascii String.
From stdpp Require Import base option list functions gmap strings.

Local Open Scope string_scope.
Local Open Scope list_scope.
Local Open Scope Z_scope.

(** ** JavaScript string primitives used by [add] *)

Module JsString.

(** [s.lastIndexOf(c)] for a one-character needle: the index of the last
    occurrence of [c], or -1.  [i] is the index of the head of [s], [acc]
    the last match seen so far. *)
Fixpoint lastIndexOf_from (c : ascii) (s : string) (i acc : Z) : Z :=
  match s with
  | EmptyString => acc
  | String a s' =>
      lastIndexOf_from c s' (i + 1) (if Ascii.eqb a c then i else acc)
  end.

Definition lastIndexOf (c : ascii) (s : string) : Z :=
  lastIndexOf_from c s 0 (-1).

Definition length (s : string) : Z := Z.of_nat (String.length s).

(** [s.slice(start, end)]: negative indices count from the end, both are
    clamped to the string, and an empty range gives the empty string. *)
Definition slice (s : string) (start end_ : Z) : string :=
  let len := length s in
  let from := if start <? 0 then Z.max (len + start) 0 else Z.min start len in
  let to := if end_ <? 0 then Z.max (len + end_) 0 else Z.min end_ len in
  if from <? to
  then String.substring (Z.to_nat from) (Z.to_nat (to - from)) s
  else EmptyString.

(** Truthiness of a string: every string but the empty one. *)
Definition truthy (s : string) : bool := negb (String.eqb s EmptyString).

End JsString.

(** ** Data model *)

(** Identity of a resource object. *)
Definition ref := positive.

(** A value of the enumeration [Resource.Type]. *)
Definition ResType := N.

(** The fields of [Resource.Basic] that the controller reads or writes.
    [path] is [None] when the property is undefined. *)
Record Handle := mkHandle {
  type : ResType;
  name : string;
  path : option string;
  isLoading : bool;
  inUse : bool
}.

Definition set_name (n : string) (h : Handle) : Handle :=
  {| type := type h; name := n; path := path h;
     isLoading := isLoading h; inUse := inUse h |}.

Definition set_isLoading (b : bool) (h : Handle) : Handle :=
  {| type := type h; name := name h; path := path h;
     isLoading := b; inUse := inUse h |}.

Definition set_inUse (b : bool) (h : Handle) : Handle :=
  {| type := type h; name := name h; path := path h;
     isLoading := isLoading h; inUse := b |}.

(** The host engine's flags, as read by one call. *)
Module engine.
Record flags := mk { isReady : bool; isLoading : bool }.
End engine.

(** Diagnostics written with [console.warn]. *)
Inductive Warning :=
| AlreadyAdded (ty : ResType) (nm : string)
| NotAdded (ty : ResType) (nm : string)
| NoNameSpecified.

(** Calls that leave the controller. *)
Inductive Effect :=
| ConsoleWarn (origin : string) (w : Warning)
| EmitADDED (r : ref)
| EmitALL_LOADED
| OnResourcesLoaded
| ForceLoad (r : ref) (sync : bool).

(** ** Buckets

    A bucket is created by the literal [{}]: an object without own
    properties whose prototype is [Object.prototype]. *)

(** The properties of [Object.prototype] (ECMAScript, with the legacy
    accessors of its Annex B); all of them read as truthy values. *)
Definition objectPrototypeKeys : list string :=
  ["constructor"; "hasOwnProperty"; "isPrototypeOf"; "propertyIsEnumerable";
   "toLocaleString"; "toString"; "valueOf"; "__proto__";
   "__defineGetter__"; "__defineSetter__"; "__lookupGetter__";
   "__lookupSetter__"].

Definition isObjectPrototypeKey (nm : string) : bool :=
  existsb (String.eqb nm) objectPrototypeKeys.

(** [own]: the own properties; [proto]: whether the prototype is still
    [Object.prototype] (it is [null] otherwise, see [assignNull]). *)
Record Bucket := mkBucket {
  own : gmap string (option ref);
  proto : bool
}.

(** [{}] *)
Global Instance bucket_empty : Empty Bucket := mkBucket ∅ true.

(** [b !! nm]: the own property [nm] of the bucket, if it has one. *)
Global Instance bucket_lookup : Lookup string (option ref) Bucket :=
  fun nm b => own b !! nm.

(** [<[nm := v]> b]: the own property [nm] created or overwritten. *)
Global Instance bucket_insert : Insert string (option ref) Bucket :=
  fun nm v b => mkBucket (<[nm := v]> (own b)) (proto b).

(** What a read of a bucket can give besides [undefined] and [null]: a
    resource handle, or a member inherited from [Object.prototype]. *)
Inductive Object :=
| Resource (r : ref)
| Inherited (member : string).

(** [subBuffer[nm]]: the own property when there is one, else the
    inherited member of that name when the prototype is in place, else
    [undefined].  [None] stands for the falsy results, [undefined] and
    [null]. *)
Definition get (b : Bucket) (nm : string) : option Object :=
  match b !! nm with
  | Some v => Resource <$> v
  | None =>
      if proto b && isObjectPrototypeKey nm
      then Some (Inherited nm)
      else None
  end.

(** [subBuffer[nm] = null]: an own property is overwritten; without one,
    the assignment to [__proto__] runs the setter inherited from
    [Object.prototype], which replaces the prototype by [null] and
    creates no property; any other assignment creates the own property. *)
Definition assignNull (b : Bucket) (nm : string) : Bucket :=
  match b !! nm with
  | Some _ => <[nm := None]> b
  | None =>
      if proto b && String.eqb nm "__proto__"
      then mkBucket (own b) false
      else <[nm := None]> b
  end.

(** The fields of the controller object.  [rootPath] is read by no method
    and is left out; the channel [_chn] is represented by its emissions in
    [effects]. *)
Record Controller := mkController {
  resources : gmap ResType Bucket;
  resourcesInUse : gmap ResType (list ref);
  numLoaded : Z;
  numToLoad : Z;
  _syncQueue : option (list ref);
  isSyncLoading : bool;
  _uniqueID : Z
}.

Record World := mkWorld {
  heap : ref -> Handle;
  ctl : Controller;
  effects : list Effect
}.

Definition set_resources v (c : Controller) : Controller :=
  mkController v (resourcesInUse c) (numLoaded c) (numToLoad c)
               (_syncQueue c) (isSyncLoading c) (_uniqueID c).

Definition set_resourcesInUse v (c : Controller) : Controller :=
  mkController (resources c) v (numLoaded c) (numToLoad c)
               (_syncQueue c) (isSyncLoading c) (_uniqueID c).

Definition set_numLoaded v (c : Controller) : Controller :=
  mkController (resources c) (resourcesInUse c) v (numToLoad c)
               (_syncQueue c) (isSyncLoading c) (_uniqueID c).

Definition set_numToLoad v (c : Controller) : Controller :=
  mkController (resources c) (resourcesInUse c) (numLoaded c) v
               (_syncQueue c) (isSyncLoading c) (_uniqueID c).

Definition set_syncQueue v (c : Controller) : Controller :=
  mkController (resources c) (resourcesInUse c) (numLoaded c) (numToLoad c)
               v (isSyncLoading c) (_uniqueID c).

Definition set_isSyncLoading v (c : Controller) : Controller :=
  mkController (resources c) (resourcesInUse c) (numLoaded c) (numToLoad c)
               (_syncQueue c) v (_uniqueID c).

Definition set_uniqueID v (c : Controller) : Controller :=
  mkController (resources c) (resourcesInUse c) (numLoaded c) (numToLoad c)
               (_syncQueue c) (isSyncLoading c) v.

(** World-level updates. *)
Definition upd_ctl (f : Controller -> Controller) (w : World) : World :=
  mkWorld (heap w) (f (ctl w)) (effects w).

Definition upd_handle (r : ref) (f : Handle -> Handle) (w : World) : World :=
  mkWorld (<[r := f (heap w r)]> (heap w)) (ctl w) (effects w).

Definition perform (e : Effect) (w : World) : World :=
  mkWorld (heap w) (ctl w) (effects w ++ [e]).

(** [init]: the constructor's assignments on top of the prototype's
    defaults.  The channel starts with no emission; the set-up of the
    canvas and of the audio back end touches no field of the controller. *)
Definition init_ctl : Controller :=
  {| resources := ∅; resourcesInUse := ∅;
     numLoaded := 0; numToLoad := 0;
     _syncQueue := None; isSyncLoading := false;
     _uniqueID := 0 |}.

Definition init (h : ref -> Handle) : World :=
  {| heap := h; ctl := init_ctl; effects := [] |}.

(** ** Type registry *)

(** The handle a bucket holds under a name as an own property, if any. *)
Definition slot (b : Bucket) (nm : string) : option ref :=
  default None (b !! nm).

(** The name [add] computes from a non-empty path. *)
Definition deriveName (path : string) : string :=
  let pointIndexOf := JsString.lastIndexOf "." path in
  let slashIndexOf := JsString.lastIndexOf "/" path in
  let pointIndexOf :=
    if pointIndexOf <? 0 then JsString.length path else pointIndexOf in
  JsString.slice path (slashIndexOf + 1) pointIndexOf.

(** The derivation step of [add]: the handle after
    [if(resource.name === "unknown" && path) { ... }]. *)
Definition derive (h : Handle) : Handle :=
  match path h with
  | Some p =>
      if String.eqb (name h) "unknown" && JsString.truthy p
      then set_name (deriveName p) h
      else h
  | None => h
  end.

Definition add (r : ref) (w : World) : option ref * World :=
  let ty := type (heap w r) in
  (* var subBuffer = this.resources[resource.type]; if(!subBuffer) {...} *)
  let w :=
    match resources (ctl w) !! ty with
    | Some _ => w
    | None => upd_ctl (fun c => set_resources (<[ty := ∅]> (resources c)) c) w
    end in
  let subBuffer := default ∅ (resources (ctl w) !! ty) in
  (* If no name is specified take it from the source. *)
  let w := upd_handle r derive w in
  let nm := name (heap w r) in
  match get subBuffer nm with
  | Some _ =>
      (None, perform (ConsoleWarn "[Resource.Manager.add]:" (AlreadyAdded ty nm)) w)
  | None =>
      (* subBuffer[resource.name] = resource: the read above was falsy, so
         the name is an own property holding null or is not inherited, and
         the assignment overwrites or creates the own property. *)
      let w := upd_ctl (fun c =>
                 set_resources (<[ty := <[nm := Some r]> subBuffer]> (resources c)) c) w in
      (Some r, perform (EmitADDED r) w)
  end.

Definition remove (r : ref) (w : World) : World :=
  let ty := type (heap w r) in
  let nm := name (heap w r) in
  match resources (ctl w) !! ty with
  | None =>
      perform (ConsoleWarn "[Resource.Manager.remove]:" (NotAdded ty nm)) w
  | Some subBuffer =>
      match get subBuffer nm with
      | None =>
          perform (ConsoleWarn "[Resource.Manager.remove]:" (NotAdded ty nm)) w
      | Some _ =>
          upd_ctl (fun c =>
            set_resources (<[ty := assignNull subBuffer nm]> (resources c)) c) w
      end
  end.

(** The common body of [getTexture] and [getSound]; [nm] is [None] when
    the argument is missing. *)
Definition getNamed (origin : string) (ty : ResType) (nm : option string)
    (w : World) : option Object * World :=
  match nm with
  | None => (None, perform (ConsoleWarn origin NoNameSpecified) w)
  | Some n =>
      if JsString.truthy n then
        match resources (ctl w) !! ty with
        | None => (None, w)
        | Some subBuffer => (get subBuffer n, w)
        end
      else (None, perform (ConsoleWarn origin NoNameSpecified) w)
  end.

(** [Resource.Type] is declared outside this file of the engine; its two
    members used here are parameters of the development. *)
Section Lookup.

Variables TEXTURE SOUND : ResType.

Definition getTexture (nm : option string) (w : World) : option Object * World :=
  getNamed "[Resource.Manager.getTexture]:" TEXTURE nm w.

Definition getSound (nm : option string) (w : World) : option Object * World :=
  getNamed "[Resource.Manager.getSound]:" SOUND nm w.

End Lookup.

(** ** Load accounting *)

Definition addToLoad (e : engine.flags) (r : ref) (w : World) : World :=
  let w := upd_handle r (set_isLoading true) w in
  if negb (engine.isReady e)
  then upd_ctl (fun c => set_numToLoad (numToLoad c + 1) c) w
  else w.

(** The block shared by [loadSuccess] and [loadFailed]:
    [if(this.numToLoad === 0 && !meta.engine.isLoading) { ... }]. *)
Definition notifyAllLoaded (e : engine.flags) (w : World) : World :=
  if (numToLoad (ctl w) =? 0) && negb (engine.isLoading e)
  then perform EmitALL_LOADED (perform OnResourcesLoaded w)
  else w.

Definition loadSuccess (e : engine.flags) (r : ref) (w : World) : World :=
  let ty := type (heap w r) in
  (* var subBuffer = this.resourcesInUse[resource.type]; if(!subBuffer) {...} *)
  let subBuffer := default [] (resourcesInUse (ctl w) !! ty) in
  let w := upd_ctl (fun c =>
             set_resourcesInUse (<[ty := subBuffer ++ [r]]> (resourcesInUse c)) c) w in
  let w := upd_handle r (set_isLoading false) w in
  let w := upd_handle r (set_inUse true) w in
  if negb (engine.isReady e) then
    let w := upd_ctl (fun c => set_numToLoad (numToLoad c - 1) c) w in
    let w := upd_ctl (fun c => set_numLoaded (numLoaded c + 1) c) w in
    notifyAllLoaded e w
  else w.

Definition loadFailed (e : engine.flags) (r : ref) (w : World) : World :=
  let w := upd_handle r (set_isLoading false) w in
  if negb (engine.isReady e) then
    let w := upd_ctl (fun c => set_numToLoad (numToLoad c - 1) c) w in
    notifyAllLoaded e w
  else w.

(** ** Synchronous load queue *)

Definition addToQueue (r : ref) (w : World) : World :=
  upd_ctl (fun c =>
    set_syncQueue (Some (default [] (_syncQueue c) ++ [r])) c) w.

Definition loadNextFromQueue (w : World) : World :=
  let w := upd_ctl (set_isSyncLoading false) w in
  match _syncQueue (ctl w) with
  | None => w
  | Some q =>
      match last q with
      | None => w
      | Some r =>
          (* this._syncQueue[this._syncQueue.length - 1].forceLoad(true); *)
          let w := perform (ForceLoad r true) w in
          (* this._syncQueue.pop(); *)
          upd_ctl (set_syncQueue (Some (removelast q))) w
      end
  end.

(** ** Identifier generator *)

Definition getUniqueID (w : World) : Z * World :=
  let w := upd_ctl (fun c => set_uniqueID (_uniqueID c + 1) c) w in
  (_uniqueID (ctl w), w).

(** ** Sequences of calls *)

(** A call of one method of the controller, with its arguments. *)
Inductive Call :=
| Add (r : ref)
| Remove (r : ref)
| AddToLoad (r : ref)
| LoadSuccess (r : ref)
| LoadFailed (r : ref)
| GetTexture (nm : option string)
| GetSound (nm : option string)
| AddToQueue (r : ref)
| LoadNextFromQueue
| GetUniqueID.

Section Run.

Variables TEXTURE SOUND : ResType.

(** One call, made while the engine's flags are [e]; the value returned
    to the caller is dropped. *)
Definition step (e : engine.flags) (c : Call) (w : World) : World :=
  match c with
  | Add r => snd (add r w)
  | Remove r => remove r w
  | AddToLoad r => addToLoad e r w
  | LoadSuccess r => loadSuccess e r w
  | LoadFailed r => loadFailed e r w
  | GetTexture nm => snd (getTexture TEXTURE nm w)
  | GetSound nm => snd (getSound SOUND nm w)
  | AddToQueue r => addToQueue r w
  | LoadNextFromQueue => loadNextFromQueue w
  | GetUniqueID => snd (getUniqueID w)
  end.

Fixpoint run (tr : list (engine.flags * Call)) (w : World) : World :=
  match tr with
  | [] => w
  | (e, c) :: tr' => run tr' (step e c w)
  end.

End Run.

(** The phase-complete notification inside a list of effects: the engine
    callback and the [ALL_LOADED] emission, in the order they happened. *)
Definition isPhaseComplete (e : Effect) : bool :=
  match e with
  | OnResourcesLoaded | EmitALL_LOADED => true
  | _ => false
  end.

Definition phaseComplete (l : list Effect) : list Effect :=
  List.filter isPhaseComplete l.

(** The diagnostics inside a list of effects. *)
Definition isConsoleWarn (e : Effect) : bool :=
  match e with
  | ConsoleWarn _ _ => true
  | _ => false
  end.

Definition warnings (l : list Effect) : list Effect :=
  List.filter isConsoleWarn l.

(** A load that reports its end: the handle and whether it succeeded. *)
Definition completion (ok : bool) (r : ref) : Call :=
  if ok then LoadSuccess r else LoadFailed r.

(** [k] consecutive calls of [getUniqueID], with the values returned. *)
Fixpoint uniqueIDs (k : nat) (w : World) : list Z * World :=
  match k with
  | O => ([], w)
  | S k' =>
      let '(i, w) := getUniqueID w in
      let '(l, w) := uniqueIDs k' w in
      (i :: l, w)
  end.

(** [n] consecutive calls of [loadNextFromQueue]. *)
Fixpoint drain (n : nat) (w : World) : World :=
  match n with
  | O => w
  | S n' => drain n' (loadNextFromQueue w)
  end.

(** The content of the queue; it is empty before the array is created. *)
Definition queue (w : World) : list ref := default [] (_syncQueue (ctl w)).

(** [l] handles enqueued one after the other, head first. *)
Definition enqueueAll (l : list ref) (w : World) : World :=
  fold_left (fun w r => addToQueue r w) l w.

(** ** Reading the registry *)

(** What the registry holds under a type and a name: the handle, or
    nothing (no bucket, no entry, or a cleared entry). *)
Definition registered (w : World) (ty : ResType) (nm : string) : option ref :=
  slot (default ∅ (resources (ctl w) !! ty)) nm.

(** What the controller reads under a type and a name, [subBuffer[nm]]
    in the bucket of the type (an empty bucket when there is none yet). *)
Definition reads (w : World) (ty : ResType) (nm : string) : option Object :=
  get (default ∅ (resources (ctl w) !! ty)) nm.

(** The name under which [add] registers a handle: its [name], or the
    name derived from its path when [name] is the placeholder. *)
Definition regName (h : Handle) : string := name (derive h).

(** ** The naming rule in the specification's words

    The name is the last path segment of the source with its extension
    stripped; without an extension it is the whole trailing segment. *)
Module NameSpec.

Fixpoint contains (c : ascii) (s : string) : bool :=
  match s with
  | EmptyString => false
  | String a s' => Ascii.eqb a c || contains c s'
  end.

(** What follows the last "/"; the whole string when it has none. *)
Fixpoint lastSegment (s : string) : string :=
  match s with
  | EmptyString => EmptyString
  | String a s' =>
      if contains "/" s' then lastSegment s'
      else if Ascii.eqb a "/" then s' else s
  end.

(** What precedes the last "."; the whole string when it has none. *)
Fixpoint stripExtension (s : string) : string :=
  match s with
  | EmptyString => EmptyString
  | String a s' =>
      if contains "." s' then String a (stripExtension s')
      else if Ascii.eqb a "." then EmptyString else s
  end.

Definition derivedName (source : string) : string :=
  stripExtension (lastSegment source).

End NameSpec.

(** ** Reading a sequence of calls *)

Definition isCompletion (c : Call) : bool :=
  match c with
  | LoadSuccess _ | LoadFailed _ => true
  | _ => false
  end.

Definition isAddToLoad (c : Call) : bool :=
  match c with
  | AddToLoad _ => true
  | _ => false
  end.

(** The calls of [addToLoad], and the calls of [loadSuccess] or
    [loadFailed], that were made while [meta.engine.isReady] was false. *)
Definition started (tr : list (engine.flags * Call)) : nat :=
  length (List.filter (fun x => negb (engine.isReady (fst x)) && isAddToLoad (snd x)) tr).

Definition finished (tr : list (engine.flags * Call)) : nat :=
  length (List.filter (fun x => negb (engine.isReady (fst x)) && isCompletion (snd x)) tr).

(** The calls of [loadSuccess] that were made while
    [meta.engine.isReady] was false. *)
Definition isLoadSuccess (c : Call) : bool :=
  match c with
  | LoadSuccess _ => true
  | _ => false
  end.

Definition succeeded (tr : list (engine.flags * Call)) : nat :=
  length (List.filter (fun x => negb (engine.isReady (fst x)) && isLoadSuccess (snd x)) tr).

(** The calls of [getUniqueID]. *)
Definition isGetUniqueID (c : Call) : bool :=
  match c with
  | GetUniqueID => true
  | _ => false
  end.

Definition identifiersIssued (tr : list (engine.flags * Call)) : nat :=
  length (List.filter (fun x => isGetUniqueID (snd x)) tr).

(** Whether [add], respectively [loadSuccess], was called for the handle. *)
Definition wasAdded (r : ref) (tr : list (engine.flags * Call)) : bool :=
  existsb (fun x => match snd x with
                    | Add r' => bool_decide (r' = r)
                    | _ => false
                    end) tr.

Definition wasLoaded (r : ref) (tr : list (engine.flags * Call)) : bool :=
  existsb (fun x => match snd x with
                    | LoadSuccess r' => bool_decide (r' = r)
                    | _ => false
                    end) tr.

(** The handles of type [ty] that [loadSuccess] was called for, in call
    order; [typeOf] reads the type of a handle. *)
Fixpoint promoted (typeOf : ref -> ResType) (ty : ResType)
    (tr : list (engine.flags * Call)) : list ref :=
  match tr with
  | [] => []
  | (_, LoadSuccess r) :: tr' =>
      if bool_decide (typeOf r = ty)
      then r :: promoted typeOf ty tr'
      else promoted typeOf ty tr'
  | _ :: tr' => promoted typeOf ty tr'
  end.

(** The in-use bucket of a type; it is empty before the array is created. *)
Definition inUseBucket (w : World) (ty : ResType) : list ref :=
  default [] (resourcesInUse (ctl w) !! ty).

(** [k] phase-complete notifications in a row. *)
Definition notifications (k : nat) : list Effect :=
  concat (replicate k [OnResourcesLoaded; EmitALL_LOADED]).

(** The fields of handle [r] after a call, from its fields [h] before:
    what the call writes into [r] when [r] is its argument. *)
Definition handleAfter (c : Call) (r : ref) (h : Handle) : Handle :=
  match c with
  | Add r' => if bool_decide (r' = r) then derive h else h
  | AddToLoad r' => if bool_decide (r' = r) then set_isLoading true h else h
  | LoadSuccess r' =>
      if bool_decide (r' = r) then set_inUse true (set_isLoading false h) else h
  | LoadFailed r' => if bool_decide (r' = r) then set_isLoading false h else h
  | _ => h
  end.

Definition isRemove (c : Call) : bool :=
  match c with
  | Remove _ => true
  | _ => false
  end.

(** The registry is keyed by its handles: a handle sits under its own
    type and name, its name is final (the derivation step would not
    change it), and its registration was announced on the channel. *)
Definition wellKeyed (w : World) : Prop :=
  forall ty nm r,
    registered w ty nm = Some r ->
    type (heap w r) = ty
    /\ name (heap w r) = nm
    /\ derive (heap w r) = heap w r
    /\ In (EmitADDED r) (effects w).


(** * Properties *)

(** ** Promotion into the in-use registry *)

Lemma count_occ_snoc (l : list ref) (r : ref) :
  count_occ Pos.eq_dec (l ++ [r]) r = S (count_occ Pos.eq_dec l r).
Proof.
  rewrite count_occ_app. cbn.
  destruct (Pos.eq_dec r r); [apply Nat.add_1_r | congruence].
Qed.

(** C5. One call of [loadSuccess] appends the handle once to the in-use
    bucket of its type, creating the bucket when it does not exist: the
    bucket is the old one followed by the handle, so the handle occurs in
    it once more than before, and no other bucket changes.  The handle
    ends with [isLoading = false] and [inUse = true].  This holds in
    every state and for every value of the engine's flags, hence whether
    or not [addToLoad] was ever called for the handle. *)
Theorem loadSuccess_promotes (e : engine.flags) (r : ref) (w : World) :
  let ty := type (heap w r) in
  let before := default [] (resourcesInUse (ctl w) !! ty) in
  let w' := loadSuccess e r w in
  resourcesInUse (ctl w') !! ty = Some (before ++ [r])
  /\ count_occ Pos.eq_dec (default [] (resourcesInUse (ctl w') !! ty)) r
     = S (count_occ Pos.eq_dec before r)
  /\ (forall ty', ty' <> ty ->
        resourcesInUse (ctl w') !! ty' = resourcesInUse (ctl w) !! ty')
  /\ heap w' r = set_inUse true (set_isLoading false (heap w r))
  /\ isLoading (heap w' r) = false
  /\ inUse (heap w' r) = true.
Proof.
  intros ty before w'.
  assert (Hc : resourcesInUse (ctl w')
               = <[ty := before ++ [r]]> (resourcesInUse (ctl w))).
  { subst w'. unfold loadSuccess, notifyAllLoaded.
    repeat match goal with |- context [if ?b then _ else _] => destruct b end;
      reflexivity. }
  assert (Hh : heap w' r = set_inUse true (set_isLoading false (heap w r))).
  { subst w'. unfold loadSuccess, notifyAllLoaded.
    repeat match goal with |- context [if ?b then _ else _] => destruct b end;
      cbn; rewrite !fn_lookup_insert; reflexivity. }
  repeat split.
  - rewrite Hc. apply lookup_insert_eq.
  - rewrite Hc, lookup_insert_eq. apply count_occ_snoc.
  - intros ty' Hne. rewrite Hc. by apply lookup_insert_ne.
  - exact Hh.
  - by rewrite Hh.
  - by rewrite Hh.
Qed.

(** ** Synchronous load queue *)

Lemma addToQueue_queue (r : ref) (w : World) :
  _syncQueue (ctl (addToQueue r w)) = Some (queue w ++ [r]).
Proof. reflexivity. Qed.

Lemma enqueueAll_queue (l : list ref) (w : World) :
  l <> [] -> _syncQueue (ctl (enqueueAll l w)) = Some (queue w ++ l).
Proof.
  revert w. induction l as [|r l IH]; intros w Hl; [congruence|].
  cbn. destruct l as [|r' l].
  - reflexivity.
  - rewrite IH by discriminate. unfold queue. rewrite addToQueue_queue. cbn.
    by rewrite <- app_assoc.
Qed.

Lemma enqueueAll_effects (l : list ref) (w : World) :
  effects (enqueueAll l w) = effects w.
Proof. revert w. induction l as [|r l IH]; intros w; [done|]. cbn. by rewrite IH. Qed.

(** One step on a non-empty queue: the last element is force-loaded, then
    popped. *)
Lemma loadNextFromQueue_snoc (q : list ref) (r : ref) (w : World) :
  _syncQueue (ctl w) = Some (q ++ [r]) ->
  loadNextFromQueue w =
  upd_ctl (set_syncQueue (Some q))
    (perform (ForceLoad r true) (upd_ctl (set_isSyncLoading false) w)).
Proof.
  intros Hq. unfold loadNextFromQueue. cbn. rewrite Hq.
  by rewrite last_snoc, removelast_last.
Qed.

Lemma loadNextFromQueue_idle (w : World) :
  _syncQueue (ctl w) = None \/ _syncQueue (ctl w) = Some [] ->
  loadNextFromQueue w = upd_ctl (set_isSyncLoading false) w.
Proof. intros [Hq|Hq]; unfold loadNextFromQueue; cbn; by rewrite Hq. Qed.

Lemma loadNextFromQueue_flag (w : World) :
  isSyncLoading (ctl (loadNextFromQueue w)) = false.
Proof.
  unfold loadNextFromQueue. cbn.
  destruct (_syncQueue (ctl w)) as [q|]; [|done].
  by destruct (last q).
Qed.

Lemma drain_rev (l q : list ref) (w : World) :
  _syncQueue (ctl w) = Some (q ++ l) ->
  effects (drain (length l) w)
    = effects w ++ map (fun r => ForceLoad r true) (rev l)
  /\ (l <> [] -> _syncQueue (ctl (drain (length l) w)) = Some q).
Proof.
  revert w. induction l as [|r l IH] using rev_ind; intros w Hq.
  - cbn. rewrite app_nil_r. done.
  - rewrite length_app, Nat.add_comm. cbn [length Nat.add drain].
    rewrite app_assoc in Hq.
    rewrite (loadNextFromQueue_snoc _ _ _ Hq).
    rewrite rev_unit. cbn [map].
    edestruct (IH (upd_ctl (set_syncQueue (Some (q ++ l)))
       (perform (ForceLoad r true) (upd_ctl (set_isSyncLoading false) w)))) as [He Hs];
      [reflexivity|].
    split.
    + rewrite He. cbn. by rewrite <- app_assoc.
    + intros _. destruct l as [|r' l]; [cbn; by rewrite app_nil_r|].
      apply Hs. discriminate.
Qed.

(** C6. The queue drains last in, first out.  After [addToQueue] of [a],
    [b], [c] in that order, three calls of [loadNextFromQueue] force-load
    [c], then [b], then [a] (each with the synchronous flag), and each
    call removes the handle it loaded, leaving what the queue held before.
    In general [n] enqueued handles are force-loaded in reverse order by
    [n] calls.  A call on a queue that is empty or was never created
    changes nothing but [isSyncLoading], and every call leaves
    [isSyncLoading] false. *)
Theorem queue_drains_LIFO (a b c : ref) (w : World) :
  let w0 := addToQueue c (addToQueue b (addToQueue a w)) in
  let w1 := loadNextFromQueue w0 in
  let w2 := loadNextFromQueue w1 in
  let w3 := loadNextFromQueue w2 in
  _syncQueue (ctl w0) = Some (queue w ++ [a; b; c])
  /\ (effects w1 = effects w ++ [ForceLoad c true]
      /\ _syncQueue (ctl w1) = Some (queue w ++ [a; b]))
  /\ (effects w2 = effects w ++ [ForceLoad c true; ForceLoad b true]
      /\ _syncQueue (ctl w2) = Some (queue w ++ [a]))
  /\ (effects w3 = effects w ++ [ForceLoad c true; ForceLoad b true; ForceLoad a true]
      /\ _syncQueue (ctl w3) = Some (queue w))
  /\ (forall l v, l <> [] ->
        effects (drain (length l) (enqueueAll l v))
          = effects v ++ map (fun r => ForceLoad r true) (rev l)
        /\ _syncQueue (ctl (drain (length l) (enqueueAll l v))) = Some (queue v))
  /\ (forall v, _syncQueue (ctl v) = None \/ _syncQueue (ctl v) = Some [] ->
        loadNextFromQueue v = upd_ctl (set_isSyncLoading false) v)
  /\ (forall v, isSyncLoading (ctl (loadNextFromQueue v)) = false).
Proof.
  intros w0 w1 w2 w3.
  assert (H0 : _syncQueue (ctl w0) = Some (queue w ++ [a; b; c])).
  { subst w0. unfold addToQueue, queue. cbn. by rewrite <- !app_assoc. }
  assert (E1 : w1 = upd_ctl (set_syncQueue (Some (queue w ++ [a; b])))
    (perform (ForceLoad c true) (upd_ctl (set_isSyncLoading false) w0))).
  { subst w1. apply loadNextFromQueue_snoc. rewrite H0.
    by rewrite <- (app_assoc _ [a; b] [c]). }
  assert (E2 : w2 = upd_ctl (set_syncQueue (Some (queue w ++ [a])))
    (perform (ForceLoad b true) (upd_ctl (set_isSyncLoading false) w1))).
  { subst w2. apply loadNextFromQueue_snoc. rewrite E1. cbn.
    by rewrite <- (app_assoc _ [a] [b]). }
  assert (E3 : w3 = upd_ctl (set_syncQueue (Some (queue w)))
    (perform (ForceLoad a true) (upd_ctl (set_isSyncLoading false) w2))).
  { subst w3. apply loadNextFromQueue_snoc. rewrite E2. reflexivity. }
  split; [exact H0|].
  split; [rewrite E1; by cbn|].
  split; [rewrite E2, E1; cbn; by rewrite <- app_assoc|].
  split; [rewrite E3, E2, E1; cbn; by rewrite <- !app_assoc|].
  split.
  { intros l v Hl.
    destruct (drain_rev l (queue v) (enqueueAll l v)) as [He Hs].
    - by apply enqueueAll_queue.
    - rewrite He, enqueueAll_effects. split; [done|]. by apply Hs. }
  split; [apply loadNextFromQueue_idle|apply loadNextFromQueue_flag].
Qed.

Lemma queue_drains_LIFO_witness :
  let h : ref -> Handle := fun _ => mkHandle 2%N "theme" None false false in
  let l := [1%positive; 2%positive; 3%positive] in
  (l <> [] /\ _syncQueue (ctl (init h)) = None)
  /\ effects (drain 3 (enqueueAll l (init h)))
     = [ForceLoad 3%positive true; ForceLoad 2%positive true;
        ForceLoad 1%positive true]
  /\ loadNextFromQueue (init h) = upd_ctl (set_isSyncLoading false) (init h).
Proof.
  intros h l. split; [split; [discriminate|reflexivity]|].
  destruct (queue_drains_LIFO 1%positive 2%positive 3%positive (init h))
    as (_ & _ & _ & _ & Hall & Hidle & _).
  split.
  - apply (Hall l (init h)). discriminate.
  - apply Hidle. by left.
Defined.

(** ** Identifier generator *)

Lemma uniqueIDs_from (k : nat) (w : World) :
  fst (uniqueIDs k w)
    = map (fun i => _uniqueID (ctl w) + Z.of_nat i) (seq 1 k)
  /\ _uniqueID (ctl (snd (uniqueIDs k w))) = _uniqueID (ctl w) + Z.of_nat k.
Proof.
  revert w. induction k as [|k IH]; intros w.
  - cbn. split; [done|lia].
  - cbn [uniqueIDs]. destruct (getUniqueID w) as [i w1] eqn:E1.
    destruct (uniqueIDs k w1) as [l w2] eqn:E2.
    destruct (IH w1) as [IHl IHs]. rewrite E2 in IHl, IHs. cbn in IHl, IHs.
    unfold getUniqueID in E1. injection E1 as <- <-. cbn in *.
    split.
    + f_equal. rewrite IHl, <- (seq_shift k 1), map_map.
      apply map_ext. intros j. lia.
    + rewrite IHs. lia.
Qed.

Lemma increasing_ids (n : Z) (k s : nat) :
  StronglySorted Z.lt (map (fun i => n + Z.of_nat i) (seq s k)).
Proof.
  revert s. induction k as [|k IH]; intros s; cbn; constructor.
  - apply IH.
  - apply List.Forall_forall. intros x Hx. apply in_map_iff in Hx as [j [<- Hj]].
    apply in_seq in Hj. lia.
Qed.

(** C7. On a fresh manager, [k] calls of [getUniqueID] return
    1, 2, ..., [k]: [k] values, pairwise distinct, strictly increasing,
    the first of them 1 (the counter starts at 0 and is incremented before
    it is returned). *)
Theorem getUniqueID_fresh (k : nat) (h : ref -> Handle) :
  let ids := fst (uniqueIDs k (init h)) in
  ids = map Z.of_nat (seq 1 k)
  /\ length ids = k
  /\ NoDup ids
  /\ StronglySorted Z.lt ids
  /\ head ids = match k with O => None | S _ => Some 1 end.
Proof.
  intros ids.
  assert (E : ids = map (fun i => 0 + Z.of_nat i) (seq 1 k)).
  { subst ids. by destruct (uniqueIDs_from k (init h)) as [-> _]. }
  split; [rewrite E; by apply map_ext|].
  split; [rewrite E; by rewrite length_map, length_seq|].
  assert (S : StronglySorted Z.lt ids) by (rewrite E; apply increasing_ids).
  split; [|split; [exact S|]].
  - clear E. induction S as [|x l _ IH Hx]; constructor; [|exact IH].
    rewrite list_elem_of_In. intros Hin.
    rewrite List.Forall_forall in Hx. specialize (Hx _ Hin). lia.
  - rewrite E. by destruct k.
Qed.

(** ** Type registry *)

Lemma truthy_nonempty (s : string) : JsString.truthy s = true <-> s <> EmptyString.
Proof.
  unfold JsString.truthy. destruct (String.eqb_spec s EmptyString); cbn; split; congruence.
Qed.

Lemma derive_type (h : Handle) : type (derive h) = type h.
Proof.
  unfold derive. destruct (path h) as [p|]; [|done].
  by destruct (String.eqb (name h) "unknown" && JsString.truthy p).
Qed.

Lemma derive_path (h : Handle) : path (derive h) = path h.
Proof.
  unfold derive. destruct (path h) as [p|] eqn:E; [|done].
  by destruct (String.eqb (name h) "unknown" && JsString.truthy p).
Qed.

(** Deriving twice changes nothing more: a derived name that is itself
    the placeholder is derived from the same path again. *)
Lemma derive_idempotent (h : Handle) : derive (derive h) = derive h.
Proof.
  unfold derive at 1. rewrite derive_path. unfold derive.
  destruct (path h) as [p|] eqn:E; [|done].
  destruct (String.eqb (name h) "unknown" && JsString.truthy p) eqn:B; [|by rewrite B].
  cbn [name set_name].
  destruct (String.eqb (deriveName p) "unknown" && JsString.truthy p); reflexivity.
Qed.

Lemma regName_named (h : Handle) : name h <> "unknown" -> regName h = name h.
Proof.
  intros Hn. unfold regName, derive. destruct (path h) as [p|]; [|done].
  destruct (String.eqb_spec (name h) "unknown"); [congruence|done].
Qed.

Lemma regName_derived (h : Handle) (p : string) :
  name h = "unknown" -> path h = Some p -> p <> EmptyString -> regName h = deriveName p.
Proof.
  intros Hn Hp Hne. unfold regName, derive. rewrite Hp, Hn.
  apply truthy_nonempty in Hne. by rewrite Hne.
Qed.

(** *** Buckets *)

Lemma bucket_lookup_empty (nm : string) : (∅ : Bucket) !! nm = None.
Proof. apply (lookup_empty (M := gmap string)). Qed.

Lemma bucket_lookup_insert_eq (b : Bucket) (nm : string) (v : option ref) :
  (<[nm := v]> b) !! nm = Some v.
Proof. apply (lookup_insert_eq (M := gmap string)). Qed.

Lemma bucket_lookup_insert_ne (b : Bucket) (nm nm' : string) (v : option ref) :
  nm <> nm' -> (<[nm := v]> b) !! nm' = b !! nm'.
Proof. apply (lookup_insert_ne (M := gmap string)). Qed.

(** A read gives a handle exactly when the handle is an own entry. *)
Lemma get_Resource (b : Bucket) (nm : string) (x : ref) :
  get b nm = Some (Resource x) <-> slot b nm = Some x.
Proof.
  unfold get, slot.
  destruct (b !! nm) as [[y|]|]; [| |destruct (proto b && isObjectPrototypeKey nm)];
    cbn; split; intros H; by simplify_eq.
Qed.

Lemma get_None_slot (b : Bucket) (nm : string) :
  get b nm = None -> slot b nm = None.
Proof.
  unfold get, slot. destruct (b !! nm) as [[y|]|]; cbn; try done.
Qed.

(** A name that [Object.prototype] does not define reads as the own
    entry. *)
Lemma get_ordinary (b : Bucket) (nm : string) :
  isObjectPrototypeKey nm = false -> get b nm = Resource <$> slot b nm.
Proof.
  intros H. unfold get, slot. rewrite H, andb_false_r.
  by destruct (b !! nm) as [[y|]|].
Qed.

(** After [subBuffer[nm] = null] the name reads falsy and holds no
    handle; the other own entries are untouched. *)
Lemma assignNull_slot (b : Bucket) (nm nm' : string) :
  get b nm <> None ->
  slot (assignNull b nm) nm' = if bool_decide (nm = nm') then None else slot b nm'.
Proof.
  intros Hg. unfold assignNull, slot. unfold get in Hg.
  destruct (b !! nm) as [v|] eqn:E.
  - case_bool_decide as K.
    + subst. by rewrite bucket_lookup_insert_eq.
    + by rewrite bucket_lookup_insert_ne.
  - destruct (proto b && String.eqb nm "__proto__") eqn:P.
    + change (mkBucket (own b) false !! nm') with (b !! nm').
      case_bool_decide as K; [|done]. subst. by rewrite E.
    + case_bool_decide as K.
      * subst. by rewrite bucket_lookup_insert_eq.
      * by rewrite bucket_lookup_insert_ne.
Qed.

Lemma assignNull_get (b : Bucket) (nm : string) :
  get b nm <> None -> get (assignNull b nm) nm = None.
Proof.
  intros Hg. unfold assignNull. unfold get in Hg.
  destruct (b !! nm) as [v|] eqn:E.
  - unfold get. by rewrite bucket_lookup_insert_eq.
  - destruct (proto b && String.eqb nm "__proto__") eqn:P.
    + unfold get. change (mkBucket (own b) false !! nm) with (b !! nm).
      by rewrite E.
    + unfold get. by rewrite bucket_lookup_insert_eq.
Qed.

(** *** [add] *)

Lemma reads_Resource (w : World) (ty : ResType) (nm : string) (x : ref) :
  reads w ty nm = Some (Resource x) <-> registered w ty nm = Some x.
Proof. apply get_Resource. Qed.

Lemma reads_None_registered (w : World) (ty : ResType) (nm : string) :
  reads w ty nm = None -> registered w ty nm = None.
Proof. apply get_None_slot. Qed.

Lemma registered_Some_bucket (w : World) (ty : ResType) (nm : string) (x : ref) :
  registered w ty nm = Some x ->
  exists b, resources (ctl w) !! ty = Some b /\ slot b nm = Some x.
Proof.
  unfold registered. destruct (resources (ctl w) !! ty) as [b|]; cbn.
  - eauto.
  - unfold slot. rewrite bucket_lookup_empty. discriminate.
Qed.

(** [add] when the read of the slot is truthy: the handle is renamed,
    the warning written, and a missing bucket has been created. *)
Lemma add_read_truthy (r : ref) (w : World) (o : Object) :
  reads w (type (heap w r)) (regName (heap w r)) = Some o ->
  fst (add r w) = None
  /\ heap (snd (add r w)) = <[r := derive (heap w r)]> (heap w)
  /\ resources (ctl (snd (add r w)))
     = match resources (ctl w) !! type (heap w r) with
       | Some _ => resources (ctl w)
       | None => <[type (heap w r) := ∅]> (resources (ctl w))
       end
  /\ effects (snd (add r w))
     = effects w ++ [ConsoleWarn "[Resource.Manager.add]:"
                       (AlreadyAdded (type (heap w r)) (regName (heap w r)))].
Proof.
  intros Hr. unfold reads in Hr. unfold add.
  destruct (resources (ctl w) !! type (heap w r)) as [b|] eqn:Hb; cbn in *.
  - rewrite Hb. cbn. rewrite fn_lookup_insert. fold (regName (heap w r)).
    rewrite Hr. cbn. done.
  - rewrite lookup_insert_eq. cbn. rewrite fn_lookup_insert.
    fold (regName (heap w r)). rewrite Hr. cbn. done.
Qed.

(** [add] on a slot that holds a handle. *)
Lemma add_rejected (r : ref) (w : World) (x : ref) :
  registered w (type (heap w r)) (regName (heap w r)) = Some x ->
  add r w =
  (None,
   perform (ConsoleWarn "[Resource.Manager.add]:"
              (AlreadyAdded (type (heap w r)) (regName (heap w r))))
           (upd_handle r derive w)).
Proof.
  intros Hreg. destruct (registered_Some_bucket _ _ _ _ Hreg) as [b [Hb Hs]].
  apply get_Resource in Hs.
  unfold add. rewrite Hb. cbn. rewrite Hb. cbn.
  rewrite fn_lookup_insert. fold (regName (heap w r)). by rewrite Hs.
Qed.

(** [add] when the read of the slot is falsy. *)
Lemma add_accepted (r : ref) (w : World) :
  let ty := type (heap w r) in
  let nm := regName (heap w r) in
  reads w ty nm = None ->
  fst (add r w) = Some r
  /\ heap (snd (add r w)) = <[r := derive (heap w r)]> (heap w)
  /\ resources (ctl (snd (add r w)))
     = <[ty := <[nm := Some r]> (default ∅ (resources (ctl w) !! ty))]>
         (resources (ctl w))
  /\ effects (snd (add r w)) = effects w ++ [EmitADDED r].
Proof.
  intros ty nm Hreg. unfold reads in Hreg. unfold add. fold ty.
  destruct (resources (ctl w) !! ty) as [b|] eqn:Hb; cbn in *.
  - rewrite Hb. cbn. rewrite fn_lookup_insert. fold (regName (heap w r)). fold nm.
    rewrite Hreg. cbn. done.
  - rewrite lookup_insert_eq. cbn. rewrite fn_lookup_insert.
    fold (regName (heap w r)). fold nm. rewrite Hreg. cbn.
    rewrite insert_insert_eq. done.
Qed.

Lemma add_returns (r : ref) (w : World) :
  fst (add r w) = Some r <->
  reads w (type (heap w r)) (regName (heap w r)) = None.
Proof.
  split.
  - intros H.
    destruct (reads w (type (heap w r)) (regName (heap w r))) as [o|] eqn:E;
      [|done].
    destruct (add_read_truthy _ _ _ E) as [H' _]. congruence.
  - intros H. by destruct (add_accepted r w H) as [-> _].
Qed.

Lemma registered_after_add (r : ref) (w : World) :
  fst (add r w) = Some r ->
  registered (snd (add r w)) (type (heap w r)) (regName (heap w r)) = Some r.
Proof.
  intros H. apply add_returns in H.
  destruct (add_accepted r w H) as (_ & _ & Hr & _).
  unfold registered. rewrite Hr, lookup_insert_eq. cbn.
  unfold slot. by rewrite bucket_lookup_insert_eq.
Qed.

Lemma add_heap (r : ref) (w : World) :
  heap (snd (add r w)) = <[r := derive (heap w r)]> (heap w).
Proof.
  destruct (reads w (type (heap w r)) (regName (heap w r))) as [o|] eqn:E.
  - by destruct (add_read_truthy _ _ _ E) as (_ & -> & _).
  - by destruct (add_accepted r w E) as (_ & -> & _).
Qed.






(** *** [remove] *)

(** [remove] without a bucket, or on a name that reads falsy: only the
    warning. *)
Lemma remove_read_falsy (r : ref) (w : World) :
  let ty := type (heap w r) in
  let nm := name (heap w r) in
  resources (ctl w) !! ty = None \/ reads w ty nm = None ->
  remove r w
  = perform (ConsoleWarn "[Resource.Manager.remove]:" (NotAdded ty nm)) w.
Proof.
  intros ty nm H. unfold remove. fold ty nm. unfold reads in H.
  destruct (resources (ctl w) !! ty) as [b|]; [|done].
  destruct H as [H|H]; [done|]. cbn in H. by rewrite H.
Qed.

(** [remove] on a name that reads truthy: the assignment of [null]. *)
Lemma remove_read_truthy (r : ref) (w : World) (b : Bucket) (o : Object) :
  let ty := type (heap w r) in
  let nm := name (heap w r) in
  resources (ctl w) !! ty = Some b ->
  get b nm = Some o ->
  remove r w
  = upd_ctl (fun c => set_resources (<[ty := assignNull b nm]> (resources c)) c) w.
Proof.
  intros ty nm Hb Hg. unfold remove. fold ty nm. by rewrite Hb, Hg.
Qed.

(** Where nothing is registered under the type and name of the handle
    and the name is not one that [Object.prototype] defines, [remove]
    only writes the warning. *)
Lemma remove_unregistered_warns (r : ref) (w : World) :
  let ty := type (heap w r) in
  let nm := name (heap w r) in
  registered w ty nm = None ->
  isObjectPrototypeKey nm = false ->
  remove r w
  = perform (ConsoleWarn "[Resource.Manager.remove]:" (NotAdded ty nm)) w.
Proof.
  intros ty nm Hreg Hk. apply remove_read_falsy. right.
  unfold reads. rewrite get_ordinary by done.
  unfold registered, ty, nm in *. by rewrite Hreg.
Qed.

(** After [remove] of a handle whose slot is taken, the slot is free and
    [add] of a handle registered under the same type and name succeeds. *)
Lemma remove_then_add_reuses (r1 r2 x : ref) (w : World) :
  let ty := type (heap w r1) in
  let nm := name (heap w r1) in
  registered w ty nm = Some x ->
  type (heap w r2) = ty ->
  regName (heap w r2) = nm ->
  let w1 := remove r1 w in
  registered w1 ty nm = None
  /\ effects w1 = effects w
  /\ fst (add r2 w1) = Some r2
  /\ registered (snd (add r2 w1)) ty nm = Some r2
  /\ effects (snd (add r2 w1)) = effects w ++ [EmitADDED r2].
Proof.
  intros ty nm Hreg Hty Hnm w1.
  destruct (registered_Some_bucket _ _ _ _ Hreg) as [b [Hb Hs]].
  apply get_Resource in Hs.
  assert (E : w1 = upd_ctl (fun c =>
            set_resources (<[ty := assignNull b nm]> (resources c)) c) w).
  { subst w1. by apply (remove_read_truthy r1 w b (Resource x)). }
  assert (Hg : get b nm <> None) by (by rewrite Hs).
  assert (Hread : reads w1 ty nm = None).
  { rewrite E. unfold reads. cbn. rewrite lookup_insert_eq. cbn.
    by apply assignNull_get. }
  assert (Hfree : registered w1 ty nm = None) by (by apply reads_None_registered).
  assert (Hh : heap w1 = heap w) by (by rewrite E).
  assert (Hread' : reads w1 (type (heap w1 r2)) (regName (heap w1 r2)) = None).
  { rewrite Hh, Hty, Hnm. exact Hread. }
  split; [exact Hfree|]. split; [by rewrite E|].
  split; [by apply add_returns|].
  split.
  - rewrite <- Hty, <- Hnm, <- Hh. apply registered_after_add.
    by apply add_returns.
  - destruct (add_accepted r2 w1 Hread') as (_ & _ & _ & ->). by rewrite E.
Qed.

(** C8. [remove] of a handle under whose type and name nothing is
    registered, when the name is one that every object inherits: with a
    texture registered as hero, so that the bucket exists, and a second
    texture named valueOf that was never added, [remove] of the second
    writes no warning and stores a cleared entry valueOf in the bucket,
    which had none: the registry is changed. *)
Theorem remove_of_inherited_name_is_silent :
  let h : ref -> Handle := fun r =>
    if (r =? 1)%positive
    then mkHandle 1%N "hero" None false false
    else mkHandle 1%N "valueOf" None false false in
  let w := snd (add 1%positive (init h)) in
  let w' := remove 2%positive w in
  registered w 1%N "valueOf" = None
  /\ (exists b, resources (ctl w) !! 1%N = Some b /\ b !! "valueOf" = None)
  /\ effects w' = effects w
  /\ (exists b, resources (ctl w') !! 1%N = Some b /\ b !! "valueOf" = Some None)
  /\ resources (ctl w') <> resources (ctl w).
Proof.
  intros h w w'.
  split; [reflexivity|]. split; [eexists; split; reflexivity|].
  split; [reflexivity|]. split; [eexists; split; reflexivity|].
  intros E. apply (f_equal (fun m => (fun b : Bucket => b !! "valueOf") <$> m !! 1%N)) in E.
  vm_compute in E. discriminate.
Qed.

(** *** Lookups *)

(** A lookup by a non-empty name reads the bucket of the type, when
    there is one. *)
Lemma getNamed_nonempty (origin : string) (ty : ResType) (nm : string) (w : World) :
  nm <> EmptyString ->
  getNamed origin ty (Some nm) w
  = (resources (ctl w) !! ty ≫= (fun b => get b nm), w).
Proof.
  intros Hne. apply truthy_nonempty in Hne. unfold getNamed.
  rewrite Hne. by destruct (resources (ctl w) !! ty) as [b|].
Qed.

Lemma getNamed_registered (origin : string) (ty : ResType) (nm : string)
    (w : World) (r : ref) :
  nm <> EmptyString ->
  registered w ty nm = Some r ->
  getNamed origin ty (Some nm) w = (Some (Resource r), w).
Proof.
  intros Hne Hreg. rewrite getNamed_nonempty by done.
  destruct (registered_Some_bucket _ _ _ _ Hreg) as [b [-> Hs]].
  cbn. apply get_Resource in Hs. by rewrite Hs.
Qed.

Lemma getNamed_unread (origin : string) (ty : ResType) (nm : string) (w : World) :
  reads w ty nm = None -> fst (getNamed origin ty (Some nm) w) = None.
Proof.
  intros Hr. unfold getNamed. destruct (JsString.truthy nm); [|done].
  unfold reads in Hr. by destruct (resources (ctl w) !! ty) as [b|].
Qed.

(** A lookup that returns a handle found it registered. *)
Lemma getNamed_handle (origin : string) (ty : ResType) (nm : string)
    (w : World) (r : ref) :
  fst (getNamed origin ty (Some nm) w) = Some (Resource r) ->
  registered w ty nm = Some r.
Proof.
  unfold getNamed, registered. destruct (JsString.truthy nm); [|done].
  destruct (resources (ctl w) !! ty) as [b|]; cbn; [|done].
  apply get_Resource.
Qed.

Lemma add_registers_name (r : ref) (w : World) :
  name (heap (snd (add r w)) r) = regName (heap w r)
  /\ type (heap (snd (add r w)) r) = type (heap w r).
Proof.
  rewrite add_heap, fn_lookup_insert. split; [done|apply derive_type].
Qed.




(** C10. A rejected [add] still renames its argument.  When the handle's
    name is the placeholder, its path is not empty and the name derived
    from the path is taken in the bucket of its type, [add] returns null,
    the controller (registry included) is unchanged and the only effect is
    the warning, so nothing is emitted on the channel; yet the handle's
    name is now the derived name (a real change whenever that name is not
    the placeholder itself), and no other handle is touched. *)
Theorem add_rejection_renames (r x : ref) (p : string) (w : World) :
  name (heap w r) = "unknown" ->
  path (heap w r) = Some p ->
  p <> EmptyString ->
  registered w (type (heap w r)) (deriveName p) = Some x ->
  let w' := snd (add r w) in
  fst (add r w) = None
  /\ heap w' r = set_name (deriveName p) (heap w r)
  /\ name (heap w' r) = deriveName p
  /\ (deriveName p <> "unknown" -> heap w' r <> heap w r)
  /\ (forall r', r' <> r -> heap w' r' = heap w r')
  /\ ctl w' = ctl w
  /\ effects w'
     = effects w ++ [ConsoleWarn "[Resource.Manager.add]:"
                       (AlreadyAdded (type (heap w r)) (deriveName p))].
Proof.
  intros Hn Hp Hne Hreg w'.
  assert (Hd : derive (heap w r) = set_name (deriveName p) (heap w r)).
  { unfold derive. rewrite Hp, Hn. apply truthy_nonempty in Hne. by rewrite Hne. }
  assert (Hrn : regName (heap w r) = deriveName p) by (by apply regName_derived).
  rewrite <- Hrn in Hreg. subst w'. rewrite (add_rejected _ _ _ Hreg). cbn.
  rewrite fn_lookup_insert, Hd, Hrn.
  repeat split.
  - intros Hdiff Heq. apply (f_equal name) in Heq. cbn in Heq. congruence.
  - intros r' Hr'. by rewrite fn_lookup_insert_ne.
Qed.

Lemma add_rejection_renames_witness :
  let h : ref -> Handle := fun r =>
    if (r =? 1)%positive
    then mkHandle 1%N "hero" None false false
    else mkHandle 1%N "unknown" (Some "img/hero.png") false false in
  let w := snd (add 1%positive (init h)) in
  (name (heap w 2%positive) = "unknown"
   /\ path (heap w 2%positive) = Some "img/hero.png"
   /\ registered w 1%N (deriveName "img/hero.png") = Some 1%positive)
  /\ fst (add 2%positive w) = None
  /\ name (heap (snd (add 2%positive w)) 2%positive) = "hero"
  /\ ctl (snd (add 2%positive w)) = ctl w.
Proof.
  intros h w. split; [repeat split|].
  destruct (add_rejection_renames 2%positive 1%positive "img/hero.png" w)
    as (H1 & _ & H3 & _ & _ & H6 & _);
    [reflexivity|reflexivity|discriminate|reflexivity|].
  split; [exact H1|split; [exact H3|exact H6]].
Defined.

(** ** Load accounting *)

Section Accounting.

Variables TEXTURE SOUND : ResType.

Lemma run_app (t1 t2 : list (engine.flags * Call)) (w : World) :
  run TEXTURE SOUND (t1 ++ t2) w = run TEXTURE SOUND t2 (run TEXTURE SOUND t1 w).
Proof.
  revert w. induction t1 as [|[e c] t1 IH]; intros w; [done|]. cbn. apply IH.
Qed.

Lemma getNamed_ctl (o : string) (ty : ResType) (nm : option string) (w : World) :
  ctl (snd (getNamed o ty nm w)) = ctl w.
Proof.
  unfold getNamed. destruct nm as [n|]; [|done].
  destruct (JsString.truthy n); [|done].
  by destruct (resources (ctl w) !! ty).
Qed.

Lemma getNamed_phase (o : string) (ty : ResType) (nm : option string) (w : World) :
  phaseComplete (effects (snd (getNamed o ty nm w))) = phaseComplete (effects w).
Proof.
  unfold getNamed, phaseComplete. destruct nm as [n|].
  - destruct (JsString.truthy n).
    + by destruct (resources (ctl w) !! ty).
    + cbn. rewrite List.filter_app. cbn. by rewrite app_nil_r.
  - cbn. rewrite List.filter_app. cbn. by rewrite app_nil_r.
Qed.

Lemma add_numToLoad (r : ref) (w : World) :
  numToLoad (ctl (snd (add r w))) = numToLoad (ctl w).
Proof.
  unfold add. destruct (resources (ctl w) !! type (heap w r)); cbn;
    match goal with |- context [get ?b ?n] => destruct (get b n) end; done.
Qed.

Lemma add_phase (r : ref) (w : World) :
  phaseComplete (effects (snd (add r w))) = phaseComplete (effects w).
Proof.
  unfold add, phaseComplete.
  destruct (resources (ctl w) !! type (heap w r)); cbn;
    match goal with |- context [get ?b ?n] => destruct (get b n) end; cbn;
    rewrite List.filter_app; cbn; by rewrite app_nil_r.
Qed.

Lemma remove_numToLoad (r : ref) (w : World) :
  numToLoad (ctl (remove r w)) = numToLoad (ctl w).
Proof.
  unfold remove. destruct (resources (ctl w) !! type (heap w r)) as [b|]; [|done].
  by destruct (get b (name (heap w r))).
Qed.

Lemma remove_phase (r : ref) (w : World) :
  phaseComplete (effects (remove r w)) = phaseComplete (effects w).
Proof.
  unfold remove, phaseComplete.
  destruct (resources (ctl w) !! type (heap w r)) as [b|].
  - destruct (get b (name (heap w r))); [done|].
    cbn. rewrite List.filter_app. cbn. by rewrite app_nil_r.
  - cbn. rewrite List.filter_app. cbn. by rewrite app_nil_r.
Qed.

Lemma loadNextFromQueue_numToLoad (w : World) :
  numToLoad (ctl (loadNextFromQueue w)) = numToLoad (ctl w).
Proof.
  unfold loadNextFromQueue. cbn. destruct (_syncQueue (ctl w)) as [q|]; [|done].
  by destruct (last q).
Qed.

Lemma loadNextFromQueue_phase (w : World) :
  phaseComplete (effects (loadNextFromQueue w)) = phaseComplete (effects w).
Proof.
  unfold loadNextFromQueue, phaseComplete. cbn.
  destruct (_syncQueue (ctl w)) as [q|]; [|done].
  destruct (last q); [|done]. cbn. rewrite List.filter_app. cbn.
  by rewrite app_nil_r.
Qed.

(** What one call does to the counter: no operation bounds it. *)
Lemma step_numToLoad (e : engine.flags) (c : Call) (w : World) :
  numToLoad (ctl (step TEXTURE SOUND e c w))
  = numToLoad (ctl w)
    + (if engine.isReady e then 0
       else if isAddToLoad c then 1
       else if isCompletion c then -1 else 0).
Proof.
  destruct c; cbn [step isAddToLoad isCompletion].
  - rewrite add_numToLoad. destruct (engine.isReady e); lia.
  - rewrite remove_numToLoad. destruct (engine.isReady e); lia.
  - unfold addToLoad. destruct (engine.isReady e); cbn; lia.
  - unfold loadSuccess, notifyAllLoaded. destruct (engine.isReady e); cbn; [lia|].
    match goal with |- context [if ?b then _ else _] => destruct b end; cbn; lia.
  - unfold loadFailed, notifyAllLoaded. destruct (engine.isReady e); cbn; [lia|].
    match goal with |- context [if ?b then _ else _] => destruct b end; cbn; lia.
  - unfold getTexture. rewrite getNamed_ctl. destruct (engine.isReady e); lia.
  - unfold getSound. rewrite getNamed_ctl. destruct (engine.isReady e); lia.
  - cbn. destruct (engine.isReady e); lia.
  - rewrite loadNextFromQueue_numToLoad. destruct (engine.isReady e); lia.
  - cbn. destruct (engine.isReady e); lia.
Qed.

(** What one call adds to the notifications: only a completion made
    during the phase that brings the counter to zero, with the engine
    not loading, notifies. *)
Lemma step_phase (e : engine.flags) (c : Call) (w : World) :
  phaseComplete (effects (step TEXTURE SOUND e c w))
  = phaseComplete (effects w)
    ++ (if isCompletion c && negb (engine.isReady e)
           && (numToLoad (ctl w) =? 1) && negb (engine.isLoading e)
        then [OnResourcesLoaded; EmitALL_LOADED] else []).
Proof.
  destruct c; cbn [step isCompletion andb]; rewrite ?app_nil_r.
  - apply add_phase.
  - apply remove_phase.
  - unfold addToLoad. by destruct (engine.isReady e).
  - unfold loadSuccess, notifyAllLoaded. cbn.
    destruct (engine.isReady e); cbn; [by rewrite app_nil_r|].
    replace (numToLoad (ctl w) - 1 =? 0) with (numToLoad (ctl w) =? 1)
      by (destruct (Z.eqb_spec (numToLoad (ctl w)) 1);
          destruct (Z.eqb_spec (numToLoad (ctl w) - 1) 0); lia).
    destruct (numToLoad (ctl w) =? 1); cbn; [|by rewrite app_nil_r].
    destruct (engine.isLoading e); cbn; [by rewrite app_nil_r|].
    unfold phaseComplete. rewrite <- app_assoc, List.filter_app. done.
  - unfold loadFailed, notifyAllLoaded. cbn.
    destruct (engine.isReady e); cbn; [by rewrite app_nil_r|].
    replace (numToLoad (ctl w) - 1 =? 0) with (numToLoad (ctl w) =? 1)
      by (destruct (Z.eqb_spec (numToLoad (ctl w)) 1);
          destruct (Z.eqb_spec (numToLoad (ctl w) - 1) 0); lia).
    destruct (numToLoad (ctl w) =? 1); cbn; [|by rewrite app_nil_r].
    destruct (engine.isLoading e); cbn; [by rewrite app_nil_r|].
    unfold phaseComplete. rewrite <- app_assoc, List.filter_app. done.
  - apply getNamed_phase.
  - apply getNamed_phase.
  - done.
  - apply loadNextFromQueue_phase.
  - done.
Qed.

Lemma started_cons (e : engine.flags) (c : Call) (tr : list (engine.flags * Call)) :
  started ((e, c) :: tr)
  = ((if negb (engine.isReady e) && isAddToLoad c then 1 else 0) + started tr)%nat.
Proof.
  unfold started. cbn.
  by destruct (negb (engine.isReady e) && isAddToLoad c).
Qed.

Lemma finished_cons (e : engine.flags) (c : Call) (tr : list (engine.flags * Call)) :
  finished ((e, c) :: tr)
  = ((if negb (engine.isReady e) && isCompletion c then 1 else 0) + finished tr)%nat.
Proof.
  unfold finished. cbn.
  by destruct (negb (engine.isReady e) && isCompletion c).
Qed.

(** The counter is the balance of the counted starts and completions. *)
Lemma run_numToLoad (tr : list (engine.flags * Call)) (w : World) :
  numToLoad (ctl (run TEXTURE SOUND tr w))
  = numToLoad (ctl w) + Z.of_nat (started tr) - Z.of_nat (finished tr).
Proof.
  revert w. induction tr as [|[e c] tr IH]; intros w.
  - cbn. lia.
  - cbn [run]. rewrite IH, step_numToLoad, started_cons, finished_cons.
    destruct (engine.isReady e); cbn [negb andb]; [lia|].
    destruct c; cbn [isAddToLoad isCompletion]; lia.
Qed.

(** Calls that are not completions never notify. *)
Lemma run_idle (tr : list (engine.flags * Call)) (w : World) :
  Forall (fun x => isCompletion (snd x) = false) tr ->
  phaseComplete (effects (run TEXTURE SOUND tr w)) = phaseComplete (effects w).
Proof.
  revert w. induction tr as [|[e c] tr IH]; intros w Hall; [done|].
  apply Forall_cons in Hall as [Hc Hall]. cbn in Hc.
  cbn [run]. rewrite IH by done.
  rewrite step_phase, Hc. cbn. by rewrite app_nil_r.
Qed.

(** Completions made while more loads are outstanding than they resolve
    never notify. *)
Lemma run_outstanding (tr : list (engine.flags * Call)) (w : World) :
  Forall (fun x => engine.isReady (fst x) = false /\ isCompletion (snd x) = true) tr ->
  Z.of_nat (length tr) < numToLoad (ctl w) ->
  phaseComplete (effects (run TEXTURE SOUND tr w)) = phaseComplete (effects w).
Proof.
  revert w. induction tr as [|[e c] tr IH]; intros w Hall Hlt; [done|].
  apply Forall_cons in Hall as [[Hr Hc] Hall]. cbn in Hr, Hc.
  cbn [length] in Hlt. cbn [run]. rewrite IH.
  - rewrite step_phase.
    destruct (Z.eqb_spec (numToLoad (ctl w)) 1) as [E|_]; [lia|].
    rewrite andb_false_r. cbn. by rewrite app_nil_r.
  - done.
  - rewrite step_numToLoad, Hr.
    destruct c; cbn in Hc; try discriminate; cbn; lia.
Qed.

End Accounting.

(** The effects of the three accounting calls: nothing but the
    notification, when it is due. *)
Lemma accounting_effects (e : engine.flags) (r : ref) (v : World) :
  let due :=
    if negb (engine.isReady e) && (numToLoad (ctl v) =? 1)
       && negb (engine.isLoading e)
    then [OnResourcesLoaded; EmitALL_LOADED] else [] in
  effects (addToLoad e r v) = effects v
  /\ effects (loadSuccess e r v) = effects v ++ due
  /\ effects (loadFailed e r v) = effects v ++ due.
Proof.
  cbn zeta. unfold addToLoad, loadSuccess, loadFailed, notifyAllLoaded. cbn.
  destruct (engine.isReady e); cbn; [by rewrite app_nil_r|].
  replace (numToLoad (ctl v) - 1 =? 0) with (numToLoad (ctl v) =? 1)
    by (destruct (Z.eqb_spec (numToLoad (ctl v)) 1);
        destruct (Z.eqb_spec (numToLoad (ctl v) - 1) 0); lia).
  destruct (numToLoad (ctl v) =? 1); cbn; [|by rewrite app_nil_r].
  destruct (engine.isLoading e); cbn; [by rewrite app_nil_r|].
  by rewrite <- !app_assoc.
Qed.

(** C4 (amended). [numToLoad] is not clamped and nothing is logged.
    After any sequence of calls it is its initial value plus the number
    of [addToLoad] calls made while [meta.engine.isReady] was false,
    minus the number of [loadSuccess] and [loadFailed] calls made while
    it was false; it is negative exactly when those completions outnumber
    the initial value plus those starts.  Each such completion subtracts
    one, whatever the counter holds.  The only effects of [addToLoad],
    [loadSuccess] and [loadFailed] are the notification when it is due
    (counter brought from 1 to 0 during the phase, engine not loading):
    no sequence of these calls writes a diagnostic, underflow or not. *)
Theorem numToLoad_is_not_clamped (TEXTURE SOUND : ResType)
    (tr : list (engine.flags * Call)) (w : World) :
  let n := numToLoad (ctl (run TEXTURE SOUND tr w)) in
  n = numToLoad (ctl w) + Z.of_nat (started tr) - Z.of_nat (finished tr)
  /\ (n < 0 <-> numToLoad (ctl w) + Z.of_nat (started tr) < Z.of_nat (finished tr))
  /\ (forall e r v,
        engine.isReady e = false ->
        numToLoad (ctl (loadSuccess e r v)) = numToLoad (ctl v) - 1
        /\ numToLoad (ctl (loadFailed e r v)) = numToLoad (ctl v) - 1)
  /\ (forall e r v,
        let due :=
          if negb (engine.isReady e) && (numToLoad (ctl v) =? 1)
             && negb (engine.isLoading e)
          then [OnResourcesLoaded; EmitALL_LOADED] else [] in
        effects (addToLoad e r v) = effects v
        /\ effects (loadSuccess e r v) = effects v ++ due
        /\ effects (loadFailed e r v) = effects v ++ due)
  /\ (Forall (fun x => isAddToLoad (snd x) || isCompletion (snd x) = true) tr ->
      warnings (effects (run TEXTURE SOUND tr w)) = warnings (effects w)).
Proof.
  intros n. subst n. rewrite run_numToLoad.
  split; [done|]. split; [lia|]. split.
  { intros e r v He.
    pose proof (step_numToLoad TEXTURE SOUND e (LoadSuccess r) v) as Hs.
    pose proof (step_numToLoad TEXTURE SOUND e (LoadFailed r) v) as Hf.
    rewrite He in Hs, Hf. cbn in Hs, Hf. split; [rewrite Hs|rewrite Hf]; lia. }
  split; [intros e r v; apply accounting_effects|].
  revert w. induction tr as [|[e c] tr IH]; intros w Hall; [done|].
  apply Forall_cons in Hall as [Hc Hall]. cbn in Hc.
  cbn [run]. rewrite IH by done.
  destruct c; try discriminate; cbn [step];
    destruct (accounting_effects e r w) as (Ha & Hs & Hf);
    rewrite ?Ha, ?Hs, ?Hf; try done;
    unfold warnings; rewrite List.filter_app;
    match goal with |- context [if ?b then _ else _] => destruct b end;
    cbn; by rewrite app_nil_r.
Qed.

Lemma numToLoad_is_not_clamped_witness :
  let e := engine.mk false false in
  let h : ref -> Handle := fun _ => mkHandle 1%N "hero" None false false in
  let tr := [(e, LoadFailed 1%positive); (e, LoadSuccess 1%positive)] in
  (engine.isReady e = false
   /\ numToLoad (ctl (loadFailed e 1%positive (init h))) = 0 - 1)
  /\ (Forall (fun x => isAddToLoad (snd x) || isCompletion (snd x) = true) tr
      /\ warnings (effects (run 1%N 2%N tr (init h))) = []).
Proof.
  intros e h tr. split.
  - split; [reflexivity|].
    apply (numToLoad_is_not_clamped 1%N 2%N [] (init h)). reflexivity.
  - assert (H : Forall (fun x : engine.flags * Call =>
                          isAddToLoad (snd x) || isCompletion (snd x) = true) tr)
      by (repeat constructor).
    split; [exact H|].
    exact (proj2 (proj2 (proj2 (proj2
             (numToLoad_is_not_clamped 1%N 2%N tr (init h))))) H).
Defined.

Lemma numToLoad_goes_negative :
  let e := engine.mk false false in
  let h : ref -> Handle := fun _ => mkHandle 1%N "hero" None false false in
  (numToLoad (ctl (loadFailed e 1%positive (init h))) = -1
   /\ effects (loadFailed e 1%positive (init h)) = [])
  /\ (numToLoad (ctl (loadSuccess e 1%positive (init h))) = -1
      /\ effects (loadSuccess e 1%positive (init h)) = [])
  /\ numToLoad
       (ctl (loadFailed e 1%positive
               (loadSuccess e 1%positive (addToLoad e 1%positive (init h))))) = -1.
Proof. repeat split. Qed.

(** C1 (amended). Start with [numToLoad = 0].  Let N >= 1 handles be
    passed to [addToLoad] and then all be resolved by [loadSuccess] or
    [loadFailed], in any order and any mix of successes and failures,
    every call made while [meta.engine.isReady] is false.  If
    [meta.engine.isLoading] is false at the call that resolves the last
    handle, the phase-complete notification (the engine callback, then
    the ALL_LOADED emission) fires exactly once, at that call: as long as
    a handle is unresolved nothing has fired.  A sequence of calls
    without [loadSuccess] and [loadFailed] never fires it. *)
Theorem phase_complete_fires_once (TEXTURE SOUND : ResType)
    (adds : list (engine.flags * ref))
    (cs : list (engine.flags * (bool * ref))) (w : World) :
  numToLoad (ctl w) = 0 ->
  adds <> [] ->
  Forall (fun a => engine.isReady (fst a) = false) adds ->
  Forall (fun c => engine.isReady (fst c) = false) cs ->
  Permutation (map snd adds) (map (fun c => snd (snd c)) cs) ->
  (forall c, last cs = Some c -> engine.isLoading (fst c) = false) ->
  let trA := map (fun a => (fst a, AddToLoad (snd a))) adds in
  let trC := map (fun c => (fst c, completion (fst (snd c)) (snd (snd c)))) cs in
  (forall n, (n < length cs)%nat ->
     phaseComplete (effects (run TEXTURE SOUND (trA ++ take n trC) w))
     = phaseComplete (effects w))
  /\ phaseComplete (effects (run TEXTURE SOUND (trA ++ trC) w))
     = phaseComplete (effects w) ++ [OnResourcesLoaded; EmitALL_LOADED]
  /\ (forall tr v,
        Forall (fun x => isCompletion (snd x) = false) tr ->
        phaseComplete (effects (run TEXTURE SOUND tr v)) = phaseComplete (effects v)).
Proof.
  intros H0 Hne HrA HrC Hperm Hlast trA trC.
  assert (Hlen : length cs = length adds).
  { apply Permutation_length in Hperm. by rewrite !length_map in Hperm. }
  assert (HidleA : Forall (fun x : engine.flags * Call => isCompletion (snd x) = false) trA).
  { subst trA. apply Forall_map. apply Forall_forall. by intros [e r] _. }
  assert (HstartA : started trA = length adds /\ finished trA = 0%nat).
  { subst trA. clear -HrA. induction adds as [|[e r] adds IH]; [done|].
    apply Forall_cons in HrA as [Hr HrA]. cbn in Hr.
    cbn [map fst snd]. rewrite started_cons, finished_cons, Hr.
    destruct (IH HrA) as [-> ->]. done. }
  assert (HnA : numToLoad (ctl (run TEXTURE SOUND trA w)) = Z.of_nat (length adds)).
  { rewrite run_numToLoad. destruct HstartA as [-> ->]. lia. }
  assert (HpA : phaseComplete (effects (run TEXTURE SOUND trA w))
                = phaseComplete (effects w)) by (by apply run_idle).
  assert (HallC : forall l : list (engine.flags * (bool * ref)),
            Forall (fun c => engine.isReady (fst c) = false) l ->
            Forall (fun x : engine.flags * Call =>
                      engine.isReady (fst x) = false /\ isCompletion (snd x) = true)
                   (map (fun c => (fst c, completion (fst (snd c)) (snd (snd c)))) l)).
  { intros l Hl. apply Forall_map. eapply Forall_impl; [exact Hl|].
    intros [e [[|] r]] Hr; done. }
  assert (Hquiet : forall n, (n < length cs)%nat ->
            phaseComplete (effects (run TEXTURE SOUND (trA ++ take n trC) w))
            = phaseComplete (effects w)
            /\ numToLoad (ctl (run TEXTURE SOUND (trA ++ take n trC) w))
               = Z.of_nat (length adds) - Z.of_nat n).
  { intros n Hn. rewrite run_app. subst trC. rewrite firstn_map.
    assert (Hlt : length (take n cs) = n) by (rewrite length_take; lia).
    split.
    - rewrite run_outstanding.
      + exact HpA.
      + apply HallC. by apply Forall_take.
      + rewrite length_map, Hlt, HnA. lia.
    - rewrite run_numToLoad, HnA.
      specialize (HallC (take n cs)).
      assert (HallC' := HallC ltac:(by apply Forall_take)). clear HallC.
      rename HallC' into HallC.
      set (l := map _ (take n cs)) in *.
      assert (Hl : length l = n) by (subst l; by rewrite length_map).
      clearbody l. clear -HallC Hl. revert n Hl.
      induction l as [|[e c] l IH]; intros n Hl; cbn in Hl; subst n; [cbn; lia|].
      apply Forall_cons in HallC as [[Hr Hc] Hall]. cbn in Hr, Hc.
      rewrite started_cons, finished_cons, Hr, Hc.
      specialize (IH Hall _ eq_refl).
      destruct c; cbn in Hc; try discriminate; cbn [negb andb isAddToLoad]; lia. }
  split; [intros n Hn; by apply Hquiet|].
  split; [|intros tr v; apply run_idle].
  assert (Hcs : cs = [] \/ exists cs' c, cs = cs' ++ [c]).
  { clear. induction cs as [|c cs' _] using rev_ind; eauto. }
  destruct Hcs as [->|[cs' [c ->]]].
  { destruct adds; [congruence|]. cbn in Hlen. lia. }
  specialize (Hlast c (last_snoc _ _)).
  apply Forall_app in HrC as [_ HrC]. apply Forall_cons in HrC as [Hrc _].
  subst trC. rewrite map_app. cbn [map]. rewrite app_assoc, run_app. cbn [run step].
  destruct (Hquiet (length cs')) as [Hp Hn].
  { rewrite length_app. cbn. lia. }
  rewrite map_app, take_app_length' in Hp, Hn by (by rewrite length_map).
  rewrite length_app in Hlen. cbn in Hlen.
  rewrite step_phase, Hp, Hn, Hrc, Hlast.
  replace (Z.of_nat (length adds) - Z.of_nat (length cs') =? 1) with true
    by (symmetry; apply Z.eqb_eq; lia).
  by destruct c as [e [[|] r]].
Qed.

Lemma phase_complete_fires_once_witness :
  let e := engine.mk false false in
  let h : ref -> Handle := fun _ => mkHandle 1%N "hero" None false false in
  let adds := [(e, 1%positive); (e, 2%positive)] in
  let cs := [(e, (true, 2%positive)); (e, (false, 1%positive))] in
  (numToLoad (ctl (init h)) = 0
   /\ adds <> []
   /\ Forall (fun a => engine.isReady (fst a) = false) adds
   /\ Forall (fun c => engine.isReady (fst c) = false) cs
   /\ Permutation (map snd adds) (map (fun c => snd (snd c)) cs)
   /\ (forall c, last cs = Some c -> engine.isLoading (fst c) = false))
  /\ phaseComplete
       (effects
          (run 1%N 2%N
             [(e, AddToLoad 1%positive); (e, AddToLoad 2%positive);
              (e, LoadSuccess 2%positive); (e, LoadFailed 1%positive)]
             (init h)))
     = [OnResourcesLoaded; EmitALL_LOADED].
Proof.
  intros e h adds cs.
  assert (H1 : numToLoad (ctl (init h)) = 0) by reflexivity.
  assert (H2 : adds <> []) by discriminate.
  assert (H3 : Forall (fun a => engine.isReady (fst a) = false) adds)
    by (repeat constructor).
  assert (H4 : Forall (fun c : engine.flags * (bool * ref) =>
                         engine.isReady (fst c) = false) cs)
    by (repeat constructor).
  assert (H5 : Permutation (map snd adds) (map (fun c => snd (snd c)) cs))
    by apply perm_swap.
  assert (H6 : forall c, last cs = Some c -> engine.isLoading (fst c) = false).
  { intros c Hc. injection Hc as <-. reflexivity. }
  split; [by repeat split|].
  exact (proj1 (proj2 (phase_complete_fires_once 1%N 2%N adds cs (init h)
                         H1 H2 H3 H4 H5 H6))).
Defined.

Lemma phase_complete_blocked_while_engine_loads :
  let ready_false_loading_true := engine.mk false true in
  let h : ref -> Handle := fun _ => mkHandle 1%N "hero" None false false in
  let w := loadSuccess ready_false_loading_true 1%positive
             (addToLoad ready_false_loading_true 1%positive (init h)) in
  numToLoad (ctl w) = 0
  /\ isLoading (heap w 1%positive) = false
  /\ phaseComplete (effects w) = []
  /\ phaseComplete (effects w) <> [OnResourcesLoaded; EmitALL_LOADED].
Proof. repeat split. discriminate. Qed.

(** ** Name derivation *)

Section NameDerivation.

Local Open Scope string_scope.

Import NameSpec.

Lemma append_nil_l (t : string) : EmptyString ++ t = t.
Proof. reflexivity. Qed.

Lemma append_cons_l (a : ascii) (s t : string) :
  String a s ++ t = String a (s ++ t).
Proof. reflexivity. Qed.

Local Ltac step_append := rewrite ?append_nil_l, ?append_cons_l in *; cbn in *.

Lemma contains_app (c : ascii) (s t : string) :
  contains c (s ++ t) = contains c s || contains c t.
Proof.
  induction s as [|a s IH]; step_append; [done|]. rewrite IH. by rewrite orb_assoc.
Qed.

Lemma length_append (s t : string) :
  String.length (s ++ t) = (String.length s + String.length t)%nat.
Proof. induction s as [|a s IH]; step_append; [done|]. by rewrite IH. Qed.

Lemma lastIndexOf_from_absent (c : ascii) (s : string) (i acc : Z) :
  contains c s = false -> JsString.lastIndexOf_from c s i acc = acc.
Proof.
  revert i acc. induction s as [|a s IH]; intros i acc H; cbn in *; [done|].
  apply orb_false_iff in H as [Ha Hs]. rewrite Ha. by apply IH.
Qed.

(** When [c] occurs, the index found is the length of what precedes its
    last occurrence. *)
Lemma lastIndexOf_from_present (c : ascii) (s : string) (i acc : Z) :
  contains c s = true ->
  exists pre post,
    s = pre ++ String c post
    /\ contains c post = false
    /\ JsString.lastIndexOf_from c s i acc = i + Z.of_nat (String.length pre).
Proof.
  revert i acc. induction s as [|a s IH]; intros i acc H; cbn in *; [done|].
  destruct (contains c s) eqn:Hs.
  - destruct (IH (i + 1) (if Ascii.eqb a c then i else acc) eq_refl)
      as (pre & post & -> & Hpost & ->).
    exists (String a pre), post. step_append. repeat split; [done|lia].
  - rewrite orb_false_r in H. rewrite H.
    apply Ascii.eqb_eq in H as ->.
    exists EmptyString, s. step_append. repeat split; [done|].
    rewrite lastIndexOf_from_absent by done. lia.
Qed.

Lemma lastIndexOf_absent (c : ascii) (s : string) :
  contains c s = false -> JsString.lastIndexOf c s = -1.
Proof. apply lastIndexOf_from_absent. Qed.

Lemma lastIndexOf_present (c : ascii) (s : string) :
  contains c s = true ->
  exists pre post,
    s = pre ++ String c post
    /\ contains c post = false
    /\ JsString.lastIndexOf c s = Z.of_nat (String.length pre).
Proof.
  intros H. destruct (lastIndexOf_from_present c s 0 (-1) H)
    as (pre & post & ? & ? & E).
  exists pre, post. repeat split; [done..|]. unfold JsString.lastIndexOf. lia.
Qed.

Lemma substring_skip (pre t : string) (k : nat) :
  substring (String.length pre) k (pre ++ t) = substring 0 k t.
Proof. induction pre as [|a pre IH]; step_append; done. Qed.

Lemma substring_prefix (m t : string) :
  substring 0 (String.length m) (m ++ t) = m.
Proof.
  induction m as [|a m IH]; step_append.
  - by destruct t.
  - by rewrite IH.
Qed.

Lemma length_zero (s : string) : String.length s = 0%nat -> s = EmptyString.
Proof. by destruct s. Qed.

(** [slice] between two positions that delimit a part of the string. *)
Lemma slice_middle (pre m post : string) :
  JsString.slice (pre ++ m ++ post)
    (Z.of_nat (String.length pre))
    (Z.of_nat (String.length pre + String.length m)) = m.
Proof.
  unfold JsString.slice, JsString.length. rewrite !length_append.
  destruct (Z.ltb_spec (Z.of_nat (String.length pre)) 0) as [?|_]; [lia|].
  destruct (Z.ltb_spec (Z.of_nat (String.length pre + String.length m)) 0)
    as [?|_]; [lia|].
  rewrite !Z.min_l by lia.
  destruct (Z.ltb_spec (Z.of_nat (String.length pre))
              (Z.of_nat (String.length pre + String.length m))) as [Hlt|Hge].
  - rewrite Nat2Z.id.
    replace (Z.to_nat _) with (String.length m) by lia.
    by rewrite substring_skip, substring_prefix.
  - symmetry. apply length_zero. lia.
Qed.

Lemma lastSegment_whole (s : string) :
  contains "/" s = false -> lastSegment s = s.
Proof.
  induction s as [|a s IH]; cbn; [done|]. intros H.
  apply orb_false_iff in H as [Ha Hs]. by rewrite Hs, Ha.
Qed.

Lemma lastSegment_after (pre post : string) :
  contains "/" post = false -> lastSegment (pre ++ String "/" post) = post.
Proof.
  intros H. induction pre as [|a pre IH]; step_append.
  - by rewrite H.
  - rewrite contains_app. cbn. by rewrite orb_true_r.
Qed.

Lemma stripExtension_whole (s : string) :
  contains "." s = false -> stripExtension s = s.
Proof.
  induction s as [|a s IH]; cbn; [done|]. intros H.
  apply orb_false_iff in H as [Ha Hs]. by rewrite Hs, Ha.
Qed.

Lemma stripExtension_before (m ext : string) :
  contains "." ext = false -> stripExtension (m ++ String "." ext) = m.
Proof.
  intros H. induction m as [|a m IH]; step_append.
  - by rewrite H.
  - rewrite contains_app. cbn. rewrite orb_true_r. by rewrite IH.
Qed.

(** Two ways of cutting one string: the shorter prefix is a prefix of
    the longer one. *)
Lemma append_overlap (a b c d : string) :
  a ++ b = c ++ d -> (String.length a < String.length c)%nat ->
  exists m, c = a ++ m /\ b = m ++ d.
Proof.
  revert c. induction a as [|x a IH]; intros c H Hlt; step_append.
  - exists c. done.
  - destruct c as [|y c]; step_append; [lia|].
    injection H as -> H. destruct (IH c H ltac:(lia)) as (m & -> & ->).
    by exists m.
Qed.

Lemma append_assoc' (a b c : string) : (a ++ b) ++ c = a ++ (b ++ c).
Proof. induction a as [|x a IH]; step_append; [done|]. by rewrite IH. Qed.

Lemma append_nil_r' (a : string) : a ++ EmptyString = a.
Proof. induction a as [|x a IH]; step_append; [done|]. by rewrite IH. Qed.

Lemma slice_between (pre m post : string) (i j : Z) :
  i = Z.of_nat (String.length pre) ->
  j = Z.of_nat (String.length pre + String.length m) ->
  JsString.slice (pre ++ m ++ post) i j = m.
Proof. intros -> ->. apply slice_middle. Qed.

(** Where the path has no dot, or its last dot lies in its last
    segment, the code computes the name of the naming rule. *)
Lemma deriveName_follows_rule (p : string) :
  JsString.lastIndexOf "." p < 0
  \/ JsString.lastIndexOf "/" p < JsString.lastIndexOf "." p ->
  deriveName p = derivedName p.
Proof.
  intros H. unfold deriveName, derivedName.
  destruct (contains "." p) eqn:Hd; destruct (contains "/" p) eqn:Hs.
  - destruct (lastIndexOf_present _ _ Hd) as (pd & ext & Ed & Hext & Id).
    destruct (lastIndexOf_present _ _ Hs) as (ps & post & Es & Hpost & Is).
    rewrite Id, Is in *.
    destruct (Z.ltb_spec (Z.of_nat (String.length pd)) 0) as [?|_]; [lia|].
    assert (Hlt : (String.length ps < String.length pd)%nat) by lia.
    destruct (append_overlap ps (String "/" post) pd (String "." ext)) as (m & Em & Ep);
      [congruence|done|].
    destruct m as [|x mid].
    { rewrite append_nil_r' in Em. subst pd. lia. }
    rewrite append_cons_l in Ep. injection Ep as <- Ep.
    rewrite Es at 2. rewrite lastSegment_after by done.
    rewrite Ep, stripExtension_before by done.
    rewrite Es, Ep.
    change (String "/" (mid ++ String "." ext))
      with ("/" ++ (mid ++ String "." ext)).
    rewrite <- append_assoc'.
    apply slice_between; subst pd; rewrite !length_append; cbn; lia.
  - destruct (lastIndexOf_present _ _ Hd) as (pd & ext & Ed & Hext & Id).
    rewrite Id, (lastIndexOf_absent _ _ Hs).
    destruct (Z.ltb_spec (Z.of_nat (String.length pd)) 0) as [?|_]; [lia|].
    rewrite lastSegment_whole by done.
    rewrite Ed at 2. rewrite stripExtension_before by done.
    rewrite Ed. rewrite <- (append_nil_l (pd ++ String "." ext)).
    apply slice_between; cbn; lia.
  - destruct (lastIndexOf_present _ _ Hs) as (ps & post & Es & Hpost & Is).
    rewrite Is, (lastIndexOf_absent _ _ Hd). cbn [Z.ltb Z.compare].
    rewrite Es at 3. rewrite lastSegment_after by done.
    assert (Hnd : contains "." post = false).
    { rewrite Es, contains_app in Hd. cbn in Hd.
      apply orb_false_iff in Hd as [_ Hd]. exact Hd. }
    rewrite stripExtension_whole by done.
    unfold JsString.length. rewrite Es.
    change (String "/" post) with ("/" ++ post).
    rewrite <- append_assoc'. rewrite <- (append_nil_r' post) at 1.
    apply slice_between; rewrite !length_append, ?append_nil_r'; cbn; lia.
  - rewrite (lastIndexOf_absent _ _ Hs), (lastIndexOf_absent _ _ Hd).
    cbn [Z.ltb Z.compare].
    rewrite lastSegment_whole, stripExtension_whole by done.
    unfold JsString.length.
    rewrite <- (append_nil_l p) at 1. rewrite <- (append_nil_r' p) at 1.
    apply slice_between; cbn; lia.
Qed.

(** Where the last dot of the path lies in a directory segment, the
    code computes the empty name, while the naming rule asks for the
    last segment. *)
Lemma deriveName_dot_in_directory (p : string) :
  0 <= JsString.lastIndexOf "." p < JsString.lastIndexOf "/" p ->
  deriveName p = EmptyString /\ derivedName p = lastSegment p.
Proof.
  intros H. unfold deriveName, derivedName.
  destruct (contains "." p) eqn:Hd.
  2: { rewrite (lastIndexOf_absent _ _ Hd) in H. lia. }
  destruct (contains "/" p) eqn:Hs.
  2: { rewrite (lastIndexOf_absent _ _ Hs) in H. lia. }
  destruct (lastIndexOf_present _ _ Hd) as (pd & ext & Ed & Hext & Id).
  destruct (lastIndexOf_present _ _ Hs) as (ps & post & Es & Hpost & Is).
  rewrite Id, Is in *.
  destruct (Z.ltb_spec (Z.of_nat (String.length pd)) 0) as [?|_]; [lia|].
  split.
  - unfold JsString.slice, JsString.length.
    assert (Hlen : String.length p
                   = (String.length pd + S (String.length ext))%nat).
    { rewrite Ed, length_append. done. }
    rewrite Hlen.
    destruct (Z.ltb_spec (Z.of_nat (String.length ps) + 1) 0) as [?|_]; [lia|].
    destruct (Z.ltb_spec (Z.of_nat (String.length pd)) 0) as [?|_]; [lia|].
    match goal with |- (if (?a <? ?b)%Z then _ else _) = _ =>
      destruct (Z.ltb_spec a b) as [Hab|_]; [lia|done] end.
  - assert (Hlt : (String.length pd < String.length ps)%nat) by lia.
    destruct (append_overlap pd (String "." ext) ps (String "/" post))
      as (m & Em & Ep); [congruence|done|].
    destruct m as [|x m'].
    { rewrite append_nil_r' in Em. subst ps. lia. }
    rewrite append_cons_l in Ep. injection Ep as <- Ep.
    rewrite Ep, contains_app in Hext. cbn in Hext.
    apply orb_false_iff in Hext as [_ Hext].
    assert (Hseg : lastSegment p = post)
      by (rewrite Es; by apply lastSegment_after).
    rewrite Hseg. by apply stripExtension_whole.
Qed.

End NameDerivation.

(** C3. By the naming rule the sources a/b/c.png and a/b/readme give the
    names c and readme, and [add] computes them.  For the source a.b/c,
    whose only dot is in a directory segment, the rule gives c, but [add]
    accepts the handle under the empty name. *)
Theorem add_derives_empty_name_for_dotted_directory :
  let h : ref -> Handle := fun r =>
    if (r =? 1)%positive
    then mkHandle 1%N "unknown" (Some "a/b/c.png") false false
    else if (r =? 2)%positive
    then mkHandle 1%N "unknown" (Some "a/b/readme") false false
    else mkHandle 1%N "unknown" (Some "a.b/c") false false in
  name (heap (snd (add 1%positive (init h))) 1%positive) = "c"
  /\ name (heap (snd (add 2%positive (init h))) 2%positive) = "readme"
  /\ NameSpec.derivedName "a.b/c" = "c"
  /\ fst (add 3%positive (init h)) = Some 3%positive
  /\ name (heap (snd (add 3%positive (init h))) 3%positive) = EmptyString.
Proof. repeat split. Qed.

(** * Further properties of the controller *)

(** ** What the calls do to the handles *)

Lemma getNamed_heap (o : string) (ty : ResType) (nm : option string) (w : World) :
  heap (snd (getNamed o ty nm w)) = heap w.
Proof.
  unfold getNamed. destruct nm as [n|]; [|done].
  destruct (JsString.truthy n); [|done].
  by destruct (resources (ctl w) !! ty).
Qed.

Lemma remove_heap (r : ref) (w : World) : heap (remove r w) = heap w.
Proof.
  unfold remove. destruct (resources (ctl w) !! type (heap w r)) as [b|]; [|done].
  by destruct (get b (name (heap w r))).
Qed.

Lemma loadNextFromQueue_heap (w : World) : heap (loadNextFromQueue w) = heap w.
Proof.
  unfold loadNextFromQueue. cbn. destruct (_syncQueue (ctl w)) as [q|]; [|done].
  by destruct (last q).
Qed.

Lemma insert_at (h : ref -> Handle) (r r' : ref) (x : Handle) :
  (<[r := x]> h) r' = if bool_decide (r = r') then x else h r'.
Proof.
  case_bool_decide as E.
  - subst. apply fn_lookup_insert.
  - by apply fn_lookup_insert_ne.
Qed.

(** Every call writes at most into the handle it is given. *)
Lemma step_heap (TEXTURE SOUND : ResType) (e : engine.flags) (c : Call)
    (w : World) (r : ref) :
  heap (step TEXTURE SOUND e c w) r = handleAfter c r (heap w r).
Proof.
  destruct c; cbn [step handleAfter].
  - rewrite add_heap, insert_at. repeat case_bool_decide; subst; reflexivity || congruence.
  - by rewrite remove_heap.
  - unfold addToLoad. destruct (engine.isReady e); cbn;
      rewrite insert_at; repeat case_bool_decide; subst; reflexivity || congruence.
  - unfold loadSuccess, notifyAllLoaded.
    repeat match goal with |- context [heap (if ?b then _ else _)] => destruct b end;
      cbn; rewrite !insert_at; repeat case_bool_decide; subst; reflexivity || congruence.
  - unfold loadFailed, notifyAllLoaded.
    repeat match goal with |- context [heap (if ?b then _ else _)] => destruct b end;
      cbn; rewrite !insert_at; repeat case_bool_decide; subst; reflexivity || congruence.
  - unfold getTexture. by rewrite getNamed_heap.
  - unfold getSound. by rewrite getNamed_heap.
  - done.
  - by rewrite loadNextFromQueue_heap.
  - done.
Qed.

Lemma derive_set_isLoading (b : bool) (h : Handle) :
  derive (set_isLoading b h) = set_isLoading b (derive h).
Proof.
  unfold derive. cbn. destruct (path h) as [p|]; [|done].
  by destruct (String.eqb (name h) "unknown" && JsString.truthy p).
Qed.

Lemma derive_set_inUse (b : bool) (h : Handle) :
  derive (set_inUse b h) = set_inUse b (derive h).
Proof.
  unfold derive. cbn. destruct (path h) as [p|]; [|done].
  by destruct (String.eqb (name h) "unknown" && JsString.truthy p).
Qed.

(** A call changes neither the type nor the path of a handle, nor the
    name it is registered under. *)
Lemma handleAfter_key (c : Call) (r : ref) (h : Handle) :
  type (handleAfter c r h) = type h
  /\ path (handleAfter c r h) = path h
  /\ derive (handleAfter c r h) = handleAfter c r (derive h).
Proof.
  destruct c; cbn [handleAfter]; try done; case_bool_decide; try done.
  - by rewrite derive_type, derive_path.
  - by rewrite derive_set_isLoading.
  - by rewrite derive_set_inUse, derive_set_isLoading.
  - by rewrite derive_set_isLoading.
Qed.

Lemma handleAfter_name (c : Call) (r : ref) (h : Handle) :
  name (handleAfter c r h)
  = if (match c with Add r' => bool_decide (r' = r) | _ => false end)
    then regName h else name h.
Proof. destruct c; cbn [handleAfter]; try done; by case_bool_decide. Qed.

Lemma handleAfter_regName (c : Call) (r : ref) (h : Handle) :
  regName (handleAfter c r h) = regName h.
Proof.
  unfold regName. destruct (handleAfter_key c r h) as (_ & _ & ->).
  rewrite handleAfter_name. destruct c; try done.
  case_bool_decide; [|done]. unfold regName. by rewrite derive_idempotent.
Qed.

Lemma handleAfter_inUse (c : Call) (r : ref) (h : Handle) :
  inUse (handleAfter c r h)
  = inUse h || (match c with LoadSuccess r' => bool_decide (r' = r) | _ => false end).
Proof.
  destruct c; cbn [handleAfter]; rewrite ?orb_false_r; try done;
    case_bool_decide; rewrite ?orb_false_r, ?orb_true_r; try done.
  unfold derive. destruct (path h) as [p|]; [|done].
  by destruct (String.eqb (name h) "unknown" && JsString.truthy p).
Qed.

(** X1. No sequence of calls changes the type or the path of a handle.
    Its name changes only through [add]: after the calls it is the name
    [add] registers the handle under if [add] was called for it, and its
    old name otherwise; a handle with a name other than the placeholder
    is therefore never renamed. *)
Theorem handle_identity_is_stable (TEXTURE SOUND : ResType)
    (tr : list (engine.flags * Call)) (w : World) (r : ref) :
  let w' := run TEXTURE SOUND tr w in
  type (heap w' r) = type (heap w r)
  /\ path (heap w' r) = path (heap w r)
  /\ name (heap w' r)
     = (if wasAdded r tr then regName (heap w r) else name (heap w r))
  /\ regName (heap w' r) = regName (heap w r)
  /\ (name (heap w r) <> "unknown" -> name (heap w' r) = name (heap w r)).
Proof.
  cbn zeta.
  assert (H : type (heap (run TEXTURE SOUND tr w) r) = type (heap w r)
    /\ path (heap (run TEXTURE SOUND tr w) r) = path (heap w r)
    /\ name (heap (run TEXTURE SOUND tr w) r)
       = (if wasAdded r tr then regName (heap w r) else name (heap w r))
    /\ regName (heap (run TEXTURE SOUND tr w) r) = regName (heap w r)).
  { revert w. induction tr as [|[e c] tr IH]; intros w; [done|].
    cbn [run]. destruct (IH (step TEXTURE SOUND e c w)) as (Ht & Hp & Hn & Hr).
    rewrite Ht, Hp, Hn, Hr, !step_heap.
    destruct (handleAfter_key c r (heap w r)) as (-> & -> & _).
    rewrite handleAfter_regName, handleAfter_name.
    repeat split. cbn [wasAdded existsb snd].
    fold (wasAdded r tr).
    destruct (wasAdded r tr); [by rewrite orb_true_r|]. by rewrite orb_false_r. }
  destruct H as (Ht & Hp & Hn & Hr). repeat split; try done.
  intros Hne. rewrite Hn. destruct (wasAdded r tr); [|done].
  by apply regName_named.
Qed.

Lemma handle_identity_is_stable_witness :
  let h : ref -> Handle := fun r =>
    if (r =? 1)%positive
    then mkHandle 1%N "hero" (Some "img/other.png") false false
    else mkHandle 1%N "unknown" (Some "img/hero.png") false false in
  let e := engine.mk false false in
  let tr := [(e, Add 1%positive); (e, AddToLoad 1%positive);
             (e, LoadSuccess 1%positive); (e, Remove 1%positive)] in
  name (heap (init h) 1%positive) <> "unknown"
  /\ name (heap (run 1%N 2%N tr (init h)) 1%positive) = "hero".
Proof.
  intros h e tr. split; [discriminate|].
  apply (handle_identity_is_stable 1%N 2%N tr (init h) 1%positive). discriminate.
Defined.

(** X2. [inUse] is set by [loadSuccess] and cleared by nothing: after any
    sequence of calls a handle is in use exactly when it was in use
    before or [loadSuccess] was called for it, whatever [loadFailed],
    [addToLoad] or [remove] calls follow. *)
Theorem inUse_is_never_cleared (TEXTURE SOUND : ResType)
    (tr : list (engine.flags * Call)) (w : World) (r : ref) :
  inUse (heap (run TEXTURE SOUND tr w) r) = inUse (heap w r) || wasLoaded r tr.
Proof.
  revert w. induction tr as [|[e c] tr IH]; intros w.
  - cbn. by rewrite orb_false_r.
  - cbn [run]. rewrite IH, step_heap, handleAfter_inUse.
    cbn [wasLoaded existsb snd]. fold (wasLoaded r tr). by rewrite orb_assoc.
Qed.

(** ** The registry under [add] and [remove] *)

(** What [add] leaves under every key of the registry. *)
Lemma registered_add (r : ref) (w : World) (ty : ResType) (nm : string) :
  registered (snd (add r w)) ty nm
  = match reads w (type (heap w r)) (regName (heap w r)) with
    | Some _ => registered w ty nm
    | None =>
        if bool_decide (ty = type (heap w r) /\ nm = regName (heap w r))
        then Some r else registered w ty nm
    end.
Proof.
  destruct (reads w (type (heap w r)) (regName (heap w r))) as [o|] eqn:E.
  - destruct (add_read_truthy _ _ _ E) as (_ & _ & Hr & _).
    unfold registered. rewrite Hr.
    destruct (resources (ctl w) !! type (heap w r)) as [b|] eqn:Hb; [done|].
    destruct (decide (ty = type (heap w r))) as [->|Hty].
    + by rewrite lookup_insert_eq, Hb.
    + by rewrite lookup_insert_ne.
  - destruct (add_accepted r w E) as (_ & _ & Hr & _).
    unfold registered at 1. rewrite Hr.
    case_bool_decide as K.
    + destruct K as [-> ->]. rewrite lookup_insert_eq. cbn.
      unfold slot. by rewrite bucket_lookup_insert_eq.
    + destruct (decide (ty = type (heap w r))) as [->|Hty].
      * rewrite lookup_insert_eq. cbn. unfold slot.
        rewrite bucket_lookup_insert_ne by (intros <-; by apply K).
        done.
      * by rewrite lookup_insert_ne.
Qed.

(** What [remove] leaves under every key of the registry. *)
Lemma registered_remove (r : ref) (w : World) (ty : ResType) (nm : string) :
  registered (remove r w) ty nm
  = if bool_decide (ty = type (heap w r) /\ nm = name (heap w r))
    then None else registered w ty nm.
Proof.
  destruct (resources (ctl w) !! type (heap w r)) as [b|] eqn:Hb.
  - destruct (get b (name (heap w r))) as [o|] eqn:Hg.
    + rewrite (remove_read_truthy r w b o Hb Hg).
      assert (Hne : get b (name (heap w r)) <> None) by (by rewrite Hg).
      unfold registered. cbn.
      destruct (decide (ty = type (heap w r))) as [->|Hty].
      * rewrite lookup_insert_eq, Hb. cbn. rewrite assignNull_slot by done.
        destruct (decide (name (heap w r) = nm)) as [<-|Hn].
        -- by rewrite !bool_decide_eq_true_2.
        -- rewrite !bool_decide_eq_false_2; [done| |done]. by intros [_ ->].
      * rewrite lookup_insert_ne by done.
        rewrite bool_decide_eq_false_2; [done|]. by intros [? _].
    + rewrite remove_read_falsy by (right; unfold reads; by rewrite Hb).
      case_bool_decide as K; [|done]. destruct K as [-> ->].
      unfold registered. cbn. rewrite Hb. cbn. by apply get_None_slot.
  - rewrite remove_read_falsy by (by left).
    case_bool_decide as K; [|done]. destruct K as [-> ->].
    unfold registered. cbn. rewrite Hb. cbn. unfold slot.
    by rewrite bucket_lookup_empty.
Qed.

(** X3. [add] never replaces an entry and writes nowhere else: a slot
    that holds a handle holds the same handle afterwards, and every slot
    other than the one [add] aims at (the handle's type and registration
    name) is left as it was. *)
Theorem add_overwrites_nothing (r x : ref) (w : World) (ty : ResType) (nm : string) :
  registered w ty nm = Some x
  \/ (ty, nm) <> (type (heap w r), regName (heap w r)) ->
  registered (snd (add r w)) ty nm = registered w ty nm.
Proof.
  intros H. rewrite registered_add.
  destruct (reads w (type (heap w r)) (regName (heap w r))) as [y|] eqn:E;
    [done|].
  apply reads_None_registered in E.
  case_bool_decide as K; [|done]. destruct K as [-> ->].
  destruct H as [H|H]; congruence.
Qed.

Lemma add_overwrites_nothing_witness :
  let h : ref -> Handle := fun r =>
    if (r =? 1)%positive
    then mkHandle 1%N "hero" None false false
    else mkHandle 1%N "unknown" (Some "img/hero.png") false false in
  let w := snd (add 1%positive (init h)) in
  registered w 1%N "hero" = Some 1%positive
  /\ registered (snd (add 2%positive w)) 1%N "hero" = Some 1%positive.
Proof.
  intros h w. split; [reflexivity|].
  rewrite (add_overwrites_nothing 2%positive 1%positive w 1%N "hero");
    [reflexivity|left; reflexivity].
Defined.

Lemma remove_taken_effects (r x : ref) (w : World) :
  registered w (type (heap w r)) (name (heap w r)) = Some x ->
  effects (remove r w) = effects w.
Proof.
  intros Hreg. destruct (registered_Some_bucket _ _ _ _ Hreg) as [b [Hb Hs]].
  apply get_Resource in Hs. by rewrite (remove_read_truthy r w b (Resource x) Hb Hs).
Qed.

Lemma remove_taken_reads (r x : ref) (w : World) :
  registered w (type (heap w r)) (name (heap w r)) = Some x ->
  reads (remove r w) (type (heap w r)) (name (heap w r)) = None.
Proof.
  intros Hreg. destruct (registered_Some_bucket _ _ _ _ Hreg) as [b [Hb Hs]].
  apply get_Resource in Hs. rewrite (remove_read_truthy r w b (Resource x) Hb Hs).
  unfold reads. cbn. rewrite lookup_insert_eq. cbn.
  apply assignNull_get. by rewrite Hs.
Qed.

Lemma assignNull_own (b : Bucket) (nm : string) (v : option ref) :
  b !! nm = Some v -> assignNull b nm = <[nm := None]> b.
Proof. intros H. unfold assignNull. by rewrite H. Qed.

(** X4. [remove] works by name, not by identity: it clears the slot under
    the type and the current name of its argument whichever handle the
    slot holds, without a warning.  The entry stays in the bucket as a
    cleared one, every other slot keeps its content, and no handle is
    modified. *)
Theorem remove_clears_by_name (r x : ref) (w : World) :
  let ty := type (heap w r) in
  let nm := name (heap w r) in
  registered w ty nm = Some x ->
  let w' := remove r w in
  registered w' ty nm = None
  /\ (exists b, resources (ctl w') !! ty = Some b /\ b !! nm = Some None)
  /\ (forall ty' nm', (ty', nm') <> (ty, nm) ->
        registered w' ty' nm' = registered w ty' nm')
  /\ heap w' = heap w
  /\ effects w' = effects w.
Proof.
  intros ty nm Hreg w'.
  destruct (registered_Some_bucket _ _ _ _ Hreg) as [b [Hb Hs]].
  assert (Hown : b !! nm = Some (Some x)).
  { unfold slot in Hs. by destruct (b !! nm) as [[y|]|]; simplify_eq/=. }
  apply get_Resource in Hs.
  assert (E : w' = upd_ctl (fun c =>
            set_resources (<[ty := assignNull b nm]> (resources c)) c) w).
  { subst w'. by apply (remove_read_truthy r w b (Resource x)). }
  split; [|split; [|split]].
  - subst w'. rewrite registered_remove. by rewrite bool_decide_eq_true_2.
  - rewrite E. cbn. eexists. rewrite lookup_insert_eq. split; [done|].
    rewrite (assignNull_own _ _ _ Hown). apply bucket_lookup_insert_eq.
  - intros ty' nm' Hne. subst w'. rewrite registered_remove.
    rewrite bool_decide_eq_false_2; [done|]. intros [-> ->]. by apply Hne.
  - by rewrite E.
Qed.

Lemma remove_clears_by_name_witness :
  let h : ref -> Handle := fun r =>
    mkHandle 1%N "hero" None false false in
  let w := snd (add 1%positive (init h)) in
  registered w (type (heap w 2%positive)) (name (heap w 2%positive))
    = Some 1%positive
  /\ registered (remove 2%positive w) 1%N "hero" = None.
Proof.
  intros h w. split; [reflexivity|].
  apply (remove_clears_by_name 2%positive 1%positive w). reflexivity.
Defined.

(** X5. Registration round trip.  When [add] accepts a handle, a lookup
    of its name under its type finds it; after [remove] of the handle the
    same lookup finds nothing, and the only effect of the two calls is the
    ADDED emission. *)
Theorem add_then_remove (r : ref) (w : World) :
  fst (add r w) = Some r ->
  let w1 := snd (add r w) in
  let w2 := remove r w1 in
  let ty := type (heap w r) in
  let nm := regName (heap w r) in
  registered w1 ty nm = Some r
  /\ registered w2 ty nm = None
  /\ (nm <> EmptyString ->
        forall o, fst (getNamed o ty (Some nm) w1) = Some (Resource r)
                  /\ fst (getNamed o ty (Some nm) w2) = None)
  /\ effects w2 = effects w ++ [EmitADDED r].
Proof.
  intros Hok w1 w2 ty nm.
  assert (H1 : registered w1 ty nm = Some r) by (by apply registered_after_add).
  destruct (add_registers_name r w) as [Hn Ht]. fold w1 nm in Hn. fold w1 ty in Ht.
  assert (H2 : registered w2 ty nm = None).
  { subst w2. rewrite registered_remove, Hn, Ht. by rewrite bool_decide_eq_true_2. }
  split; [done|]. split; [done|]. split.
  - intros Hne o. split.
    + by rewrite (getNamed_registered o ty nm w1 r).
    + apply getNamed_unread. subst w2. rewrite <- Hn, <- Ht in H1.
      rewrite <- Hn, <- Ht. by apply (remove_taken_reads r r w1).
  - subst w2. rewrite <- Hn, <- Ht in H1.
    rewrite (remove_taken_effects r r w1 H1).
    apply add_returns in Hok. subst w1.
    by destruct (add_accepted r w Hok) as (_ & _ & _ & ->).
Qed.

Lemma add_then_remove_witness :
  let h : ref -> Handle := fun r =>
    mkHandle 1%N "unknown" (Some "img/hero.png") false false in
  fst (add 1%positive (init h)) = Some 1%positive
  /\ registered (remove 1%positive (snd (add 1%positive (init h)))) 1%N "hero" = None
  /\ effects (remove 1%positive (snd (add 1%positive (init h))))
     = [EmitADDED 1%positive].
Proof.
  intros h. split; [reflexivity|].
  destruct (add_then_remove 1%positive (init h) eq_refl) as (_ & H2 & _ & H4).
  split; [exact H2|exact H4].
Defined.

(** ** The registry along a sequence of calls *)

Lemma getNamed_world (o : string) (ty : ResType) (nm : option string) (w : World) :
  exists l, snd (getNamed o ty nm w) = mkWorld (heap w) (ctl w) (effects w ++ l).
Proof.
  unfold getNamed. destruct w as [hp c ef]. destruct nm as [n|]; cbn.
  - destruct (JsString.truthy n).
    + exists []. rewrite app_nil_r. by destruct (resources c !! ty).
    + by eexists.
  - by eexists.
Qed.

(** A call other than [add] and [remove] leaves the registry alone. *)
Lemma step_resources (TEXTURE SOUND : ResType) (e : engine.flags) (c : Call)
    (w : World) :
  match c with Add _ | Remove _ => True | _ =>
    resources (ctl (step TEXTURE SOUND e c w)) = resources (ctl w) end.
Proof.
  destruct c; cbn [step]; try done.
  - unfold addToLoad. by destruct (engine.isReady e).
  - unfold loadSuccess, notifyAllLoaded.
    repeat match goal with |- context [ctl (if ?b then _ else _)] => destruct b end;
      done.
  - unfold loadFailed, notifyAllLoaded.
    repeat match goal with |- context [ctl (if ?b then _ else _)] => destruct b end;
      done.
  - unfold getTexture. by rewrite getNamed_ctl.
  - unfold getSound. by rewrite getNamed_ctl.
  - unfold loadNextFromQueue. cbn. destruct (_syncQueue (ctl w)) as [q|]; [|done].
    by destruct (last q).
Qed.

(** The effects only grow. *)
Lemma step_effects (TEXTURE SOUND : ResType) (e : engine.flags) (c : Call)
    (w : World) :
  exists l, effects (step TEXTURE SOUND e c w) = effects w ++ l.
Proof.
  destruct c; cbn [step].
  - unfold add. destruct (resources (ctl w) !! type (heap w r)); cbn;
      match goal with |- context [get ?b ?n] => destruct (get b n) end;
      cbn; by eexists.
  - unfold remove. destruct (resources (ctl w) !! type (heap w r)) as [b|].
    + destruct (get b (name (heap w r))); cbn; [exists []; by rewrite app_nil_r|].
      by eexists.
    + by eexists.
  - exists []. rewrite app_nil_r. unfold addToLoad. by destruct (engine.isReady e).
  - unfold loadSuccess, notifyAllLoaded.
    repeat match goal with |- context [effects (if ?b then _ else _)] => destruct b end;
      cbn; rewrite <- ?app_assoc; try (by eexists);
      exists []; by rewrite app_nil_r.
  - unfold loadFailed, notifyAllLoaded.
    repeat match goal with |- context [effects (if ?b then _ else _)] => destruct b end;
      cbn; rewrite <- ?app_assoc; try (by eexists);
      exists []; by rewrite app_nil_r.
  - destruct (getNamed_world "[Resource.Manager.getTexture]:" TEXTURE nm w) as [l Hl].
    exists l. unfold getTexture. by rewrite Hl.
  - destruct (getNamed_world "[Resource.Manager.getSound]:" SOUND nm w) as [l Hl].
    exists l. unfold getSound. by rewrite Hl.
  - exists []. by rewrite app_nil_r.
  - unfold loadNextFromQueue. cbn. destruct (_syncQueue (ctl w)) as [q|].
    + destruct (last q); cbn; [by eexists|exists []; by rewrite app_nil_r].
    + exists []. by rewrite app_nil_r.
  - exists []. by rewrite app_nil_r.
Qed.

Lemma derive_handleAfter_fixed (c : Call) (r : ref) (h : Handle) :
  derive h = h -> derive (handleAfter c r h) = handleAfter c r h
                  /\ name (handleAfter c r h) = name h.
Proof.
  intros Hd. destruct (handleAfter_key c r h) as (_ & _ & ->). rewrite Hd.
  split; [done|]. rewrite handleAfter_name. unfold regName. rewrite Hd.
  by destruct (match c with Add r' => bool_decide (r' = r) | _ => false end).
Qed.

Lemma wellKeyed_step (TEXTURE SOUND : ResType) (e : engine.flags) (c : Call)
    (w : World) :
  wellKeyed w -> wellKeyed (step TEXTURE SOUND e c w).
Proof.
  intros Inv ty nm r Hreg.
  destruct (step_effects TEXTURE SOUND e c w) as [l Hl].
  assert (Hold : registered w ty nm = Some r ->
            type (heap (step TEXTURE SOUND e c w) r) = ty
            /\ name (heap (step TEXTURE SOUND e c w) r) = nm
            /\ derive (heap (step TEXTURE SOUND e c w) r)
               = heap (step TEXTURE SOUND e c w) r
            /\ In (EmitADDED r) (effects (step TEXTURE SOUND e c w))).
  { intros Hw. destruct (Inv _ _ _ Hw) as (Ht & Hn & Hd & Hin).
    rewrite step_heap, Hl.
    destruct (handleAfter_key c r (heap w r)) as (-> & _ & _).
    destruct (derive_handleAfter_fixed c r _ Hd) as [-> ->].
    repeat split; try done. apply in_or_app. by left. }
  pose proof (step_resources TEXTURE SOUND e c w) as Hres.
  destruct c;
    try (apply Hold; revert Hreg; unfold registered; by rewrite Hres).
  - cbn [step] in *. rewrite registered_add in Hreg.
    destruct (reads w (type (heap w r0)) (regName (heap w r0))) as [y|] eqn:E;
      [by apply Hold|].
    case_bool_decide as K; [|by apply Hold].
    destruct K as [-> ->]. injection Hreg as <-.
    destruct (add_registers_name r0 w) as [Hn Ht].
    rewrite Hn, Ht, add_heap, fn_lookup_insert, derive_idempotent.
    repeat split.
    destruct (add_accepted r0 w E) as (_ & _ & _ & ->).
    apply in_or_app. right. by left.
  - cbn [step] in *. rewrite registered_remove in Hreg.
    case_bool_decide; [done|]. by apply Hold.
Qed.

Lemma wellKeyed_run (TEXTURE SOUND : ResType) (tr : list (engine.flags * Call))
    (w : World) :
  wellKeyed w -> wellKeyed (run TEXTURE SOUND tr w).
Proof.
  revert w. induction tr as [|[e c] tr IH]; intros w Inv; [done|].
  cbn [run]. apply IH. by apply wellKeyed_step.
Qed.

Lemma wellKeyed_init (h : ref -> Handle) : wellKeyed (init h).
Proof.
  intros ty nm r H. unfold registered, init in H. cbn in H.
  rewrite lookup_empty in H. cbn in H. unfold slot in H.
  by rewrite bucket_lookup_empty in H.
Qed.

(** X6. In every state reached from a fresh manager, whatever the calls,
    a handle found under a type and a name has that type and that name;
    so a handle is registered under one key at most, and whenever
    [getTexture] or [getSound] returns a handle, the handle is of their
    type and carries the name asked for.  (A lookup can also return a
    member the bucket inherits, which is no handle.) *)
Theorem registry_is_keyed_by_its_handles (TEXTURE SOUND : ResType)
    (tr : list (engine.flags * Call)) (h : ref -> Handle)
    (ty : ResType) (nm : string) (r : ref) :
  let w := run TEXTURE SOUND tr (init h) in
  registered w ty nm = Some r ->
  (type (heap w r) = ty /\ name (heap w r) = nm)
  /\ (forall ty' nm', registered w ty' nm' = Some r -> ty' = ty /\ nm' = nm)
  /\ (forall n,
        (fst (getTexture TEXTURE (Some n) w) = Some (Resource r) ->
         type (heap w r) = TEXTURE /\ name (heap w r) = n)
        /\ (fst (getSound SOUND (Some n) w) = Some (Resource r) ->
            type (heap w r) = SOUND /\ name (heap w r) = n)).
Proof.
  intros w Hreg.
  assert (Inv : wellKeyed w) by (apply wellKeyed_run, wellKeyed_init).
  destruct (Inv _ _ _ Hreg) as (Ht & Hn & _ & _).
  split; [done|]. split.
  - intros ty' nm' H'. destruct (Inv _ _ _ H') as (Ht' & Hn' & _ & _).
    split; congruence.
  - assert (G : forall o t n, fst (getNamed o t (Some n) w) = Some (Resource r) ->
                  type (heap w r) = t /\ name (heap w r) = n).
    { intros o t n Hg. apply getNamed_handle in Hg.
      destruct (Inv _ _ _ Hg) as (? & ? & _). done. }
    intros n. split; apply G.
Qed.

Lemma registry_is_keyed_by_its_handles_witness :
  let h : ref -> Handle := fun r =>
    mkHandle 1%N "unknown" (Some "img/hero.png") false false in
  let e := engine.mk false false in
  let tr := [(e, Add 1%positive); (e, AddToLoad 1%positive);
             (e, Add 2%positive); (e, LoadSuccess 1%positive)] in
  let w := run 1%N 2%N tr (init h) in
  registered w 1%N "hero" = Some 1%positive
  /\ type (heap w 1%positive) = 1%N /\ name (heap w 1%positive) = "hero".
Proof.
  intros h e tr w. split; [reflexivity|].
  exact (proj1 (registry_is_keyed_by_its_handles 1%N 2%N tr h 1%N "hero"
                  1%positive eq_refl)).
Defined.

(** X7. In every state reached from a fresh manager, each handle the
    registry holds was announced: its ADDED emission is among the
    effects. *)
Theorem registered_handles_were_announced (TEXTURE SOUND : ResType)
    (tr : list (engine.flags * Call)) (h : ref -> Handle)
    (ty : ResType) (nm : string) (r : ref) :
  registered (run TEXTURE SOUND tr (init h)) ty nm = Some r ->
  In (EmitADDED r) (effects (run TEXTURE SOUND tr (init h))).
Proof.
  intros Hreg.
  assert (Inv : wellKeyed (run TEXTURE SOUND tr (init h)))
    by (apply wellKeyed_run, wellKeyed_init).
  by destruct (Inv _ _ _ Hreg) as (_ & _ & _ & ?).
Qed.

Lemma registered_handles_were_announced_witness :
  let h : ref -> Handle := fun r =>
    mkHandle 1%N "unknown" (Some "img/hero.png") false false in
  let e := engine.mk false false in
  let tr := [(e, Add 1%positive); (e, Add 2%positive); (e, GetTexture None)] in
  registered (run 1%N 2%N tr (init h)) 1%N "hero" = Some 1%positive
  /\ In (EmitADDED 1%positive) (effects (run 1%N 2%N tr (init h))).
Proof.
  intros h e tr. split; [reflexivity|].
  apply (registered_handles_were_announced 1%N 2%N tr h 1%N "hero" 1%positive).
  reflexivity.
Defined.

(** X8. A registered handle stays registered: through any sequence of
    calls without [remove], whatever is added, loaded or looked up, a
    slot that holds a handle keeps holding the same handle. *)
Theorem registration_persists (TEXTURE SOUND : ResType)
    (tr : list (engine.flags * Call)) (w : World)
    (ty : ResType) (nm : string) (r : ref) :
  Forall (fun x => isRemove (snd x) = false) tr ->
  registered w ty nm = Some r ->
  registered (run TEXTURE SOUND tr w) ty nm = Some r.
Proof.
  revert w. induction tr as [|[e c] tr IH]; intros w Hall Hreg; [done|].
  apply Forall_cons in Hall as [Hc Hall]. cbn in Hc.
  cbn [run]. apply IH; [done|].
  pose proof (step_resources TEXTURE SOUND e c w) as Hres.
  destruct c; try discriminate;
    try (unfold registered; rewrite Hres; exact Hreg).
  cbn [step]. rewrite registered_add.
  destruct (reads w (type (heap w r0)) (regName (heap w r0))) as [y|] eqn:E;
    [done|].
  apply reads_None_registered in E.
  case_bool_decide as K; [|done]. destruct K as [-> ->]. congruence.
Qed.

Lemma registration_persists_witness :
  let h : ref -> Handle := fun r =>
    mkHandle 1%N "unknown" (Some "img/hero.png") false false in
  let e := engine.mk false false in
  let w := snd (add 1%positive (init h)) in
  let tr := [(e, Add 2%positive); (e, AddToLoad 1%positive);
             (e, LoadFailed 1%positive); (e, GetSound (Some "hero"))] in
  (Forall (fun x => isRemove (snd x) = false) tr
   /\ registered w 1%N "hero" = Some 1%positive)
  /\ registered (run 1%N 2%N tr w) 1%N "hero" = Some 1%positive.
Proof.
  intros h e w tr.
  assert (H : Forall (fun x : engine.flags * Call => isRemove (snd x) = false) tr)
    by (repeat constructor).
  split; [by split|].
  exact (registration_persists 1%N 2%N tr w 1%N "hero" 1%positive H eq_refl).
Defined.

(** X18. A name that every object inherits cannot be registered in a
    bucket that has no entry for it: when the registration name of the
    handle is a property of [Object.prototype] and the bucket of its type
    does not exist yet, or exists with its prototype in place and no own
    entry of that name, [add] answers as for a duplicate (null and the
    warning) although nothing is registered under the name, and registers
    nothing. *)
Theorem add_rejects_inherited_names (r : ref) (w : World) :
  let ty := type (heap w r) in
  let nm := regName (heap w r) in
  isObjectPrototypeKey nm = true ->
  (resources (ctl w) !! ty = None
   \/ exists b, resources (ctl w) !! ty = Some b /\ proto b = true /\ b !! nm = None) ->
  registered w ty nm = None
  /\ fst (add r w) = None
  /\ (forall ty' nm', registered (snd (add r w)) ty' nm' = registered w ty' nm')
  /\ effects (snd (add r w))
     = effects w ++ [ConsoleWarn "[Resource.Manager.add]:" (AlreadyAdded ty nm)].
Proof.
  intros ty nm Hk Hb. unfold ty, nm in *. clear ty nm.
  set (ty := type (heap w r)) in *. set (nm := regName (heap w r)) in *.
  assert (Hread : reads w ty nm = Some (Inherited nm)).
  { unfold reads. destruct Hb as [->|(b & -> & Hp & Ho)].
    - change (default ∅ None) with (∅ : Bucket). unfold get.
      rewrite bucket_lookup_empty.
      change (proto (∅ : Bucket)) with true. by rewrite Hk.
    - change (default ∅ (Some b)) with b. unfold get. by rewrite Ho, Hp, Hk. }
  assert (Hnone : registered w ty nm = None).
  { destruct (registered w ty nm) as [x|] eqn:E; [|done].
    apply reads_Resource in E. congruence. }
  split; [exact Hnone|].
  destruct (add_read_truthy r w _ Hread) as (Hf & _ & _ & He).
  split; [exact Hf|]. split; [|exact He].
  intros ty' nm'. rewrite registered_add. fold ty nm. by rewrite Hread.
Qed.

Lemma add_rejects_inherited_names_witness :
  let h : ref -> Handle := fun _ =>
    mkHandle 1%N "unknown" (Some "img/constructor.png") false false in
  (isObjectPrototypeKey (regName (heap (init h) 1%positive)) = true
   /\ resources (ctl (init h)) !! 1%N = None)
  /\ fst (add 1%positive (init h)) = None
  /\ registered (snd (add 1%positive (init h))) 1%N "constructor" = None.
Proof.
  intros h. split; [by split|].
  destruct (add_rejects_inherited_names 1%positive (init h)) as (_ & H2 & H3 & _);
    [reflexivity|by left|].
  split; [exact H2|]. by rewrite H3.
Defined.

(** ** Counters and notifications along a sequence of calls *)

Lemma step_numLoaded (TEXTURE SOUND : ResType) (e : engine.flags) (c : Call)
    (w : World) :
  numLoaded (ctl (step TEXTURE SOUND e c w))
  = numLoaded (ctl w)
    + (if negb (engine.isReady e) && isLoadSuccess c then 1 else 0).
Proof.
  destruct c; cbn [step isLoadSuccess]; rewrite ?andb_false_r, ?andb_true_r.
  - unfold add. destruct (resources (ctl w) !! type (heap w r)); cbn;
      match goal with |- context [get ?b ?n] => destruct (get b n) end; cbn; lia.
  - unfold remove. destruct (resources (ctl w) !! type (heap w r)) as [b|]; cbn;
      [destruct (get b (name (heap w r)))|]; cbn; lia.
  - unfold addToLoad. destruct (engine.isReady e); cbn; lia.
  - unfold loadSuccess, notifyAllLoaded. destruct (engine.isReady e); cbn; [lia|].
    match goal with |- context [if ?b then _ else _] => destruct b end; cbn; lia.
  - unfold loadFailed, notifyAllLoaded. destruct (engine.isReady e); cbn; [lia|].
    match goal with |- context [if ?b then _ else _] => destruct b end; cbn; lia.
  - unfold getTexture. rewrite getNamed_ctl. lia.
  - unfold getSound. rewrite getNamed_ctl. lia.
  - cbn. lia.
  - unfold loadNextFromQueue. cbn. destruct (_syncQueue (ctl w)) as [q|]; [|cbn; lia].
    destruct (last q); cbn; lia.
  - cbn. lia.
Qed.

Lemma succeeded_cons (e : engine.flags) (c : Call) (tr : list (engine.flags * Call)) :
  succeeded ((e, c) :: tr)
  = ((if negb (engine.isReady e) && isLoadSuccess c then 1 else 0) + succeeded tr)%nat.
Proof.
  unfold succeeded. cbn. by destruct (negb (engine.isReady e) && isLoadSuccess c).
Qed.

(** X9. [numLoaded] counts the successes of the phase: after any
    sequence of calls it has grown by the number of [loadSuccess] calls
    made while [meta.engine.isReady] was false.  It never decreases, and
    it grows by no more than the load completions counted in
    [numToLoad]. *)
Theorem numLoaded_counts_successes (TEXTURE SOUND : ResType)
    (tr : list (engine.flags * Call)) (w : World) :
  numLoaded (ctl (run TEXTURE SOUND tr w))
  = numLoaded (ctl w) + Z.of_nat (succeeded tr)
  /\ numLoaded (ctl w) <= numLoaded (ctl (run TEXTURE SOUND tr w))
  /\ (succeeded tr <= finished tr)%nat.
Proof.
  assert (E : numLoaded (ctl (run TEXTURE SOUND tr w))
              = numLoaded (ctl w) + Z.of_nat (succeeded tr)).
  { revert w. induction tr as [|[e c] tr IH]; intros w; [cbn; lia|].
    cbn [run]. rewrite IH, step_numLoaded, succeeded_cons.
    destruct (negb (engine.isReady e) && isLoadSuccess c); lia. }
  split; [exact E|]. split; [lia|].
  clear. induction tr as [|[e c] tr IH]; [done|].
  rewrite succeeded_cons, finished_cons.
  destruct (engine.isReady e); cbn [negb andb]; [lia|].
  destruct c; cbn; lia.
Qed.

(** X10. Once [meta.engine.isReady] is true the accounting is frozen:
    calls made while it is true change neither [numToLoad] nor
    [numLoaded] and never fire the phase-complete notification, whatever
    they are. *)
Theorem ready_engine_freezes_accounting (TEXTURE SOUND : ResType)
    (tr : list (engine.flags * Call)) (w : World) :
  Forall (fun x => engine.isReady (fst x) = true) tr ->
  numToLoad (ctl (run TEXTURE SOUND tr w)) = numToLoad (ctl w)
  /\ numLoaded (ctl (run TEXTURE SOUND tr w)) = numLoaded (ctl w)
  /\ phaseComplete (effects (run TEXTURE SOUND tr w)) = phaseComplete (effects w).
Proof.
  revert w. induction tr as [|[e c] tr IH]; intros w Hall; [done|].
  apply Forall_cons in Hall as [He Hall]. cbn in He.
  cbn [run]. destruct (IH (step TEXTURE SOUND e c w) Hall) as (-> & -> & ->).
  rewrite step_numToLoad, step_numLoaded, step_phase, He. cbn.
  rewrite andb_false_r. cbn. rewrite app_nil_r. repeat split; lia.
Qed.

Lemma ready_engine_freezes_accounting_witness :
  let e := engine.mk true false in
  let h : ref -> Handle := fun _ => mkHandle 1%N "hero" None false false in
  let tr := [(e, AddToLoad 1%positive); (e, LoadSuccess 1%positive);
             (e, LoadFailed 2%positive)] in
  Forall (fun x => engine.isReady (fst x) = true) tr
  /\ numToLoad (ctl (run 1%N 2%N tr (init h))) = 0
  /\ numLoaded (ctl (run 1%N 2%N tr (init h))) = 0
  /\ phaseComplete (effects (run 1%N 2%N tr (init h))) = [].
Proof.
  intros e h tr.
  assert (H : Forall (fun x : engine.flags * Call => engine.isReady (fst x) = true) tr)
    by (repeat constructor).
  split; [exact H|].
  exact (ready_engine_freezes_accounting 1%N 2%N tr (init h) H).
Defined.

(** X11. The engine callback and the ALL_LOADED emission only come
    together, the callback first: the notifications produced by any
    sequence of calls are a number of such pairs, at most one for each
    load completion counted during the phase. *)
Theorem notifications_come_in_pairs (TEXTURE SOUND : ResType)
    (tr : list (engine.flags * Call)) (w : World) :
  exists k,
    (k <= finished tr)%nat
    /\ phaseComplete (effects (run TEXTURE SOUND tr w))
       = phaseComplete (effects w) ++ notifications k.
Proof.
  revert w. induction tr as [|[e c] tr IH]; intros w.
  - exists 0%nat. cbn. by rewrite app_nil_r.
  - cbn [run]. destruct (IH (step TEXTURE SOUND e c w)) as (k & Hk & ->).
    rewrite step_phase, finished_cons.
    destruct (isCompletion c && negb (engine.isReady e)
              && (numToLoad (ctl w) =? 1) && negb (engine.isLoading e)) eqn:B.
    + exists (S k). split.
      * apply andb_prop in B as [B _]. apply andb_prop in B as [B _].
        apply andb_prop in B as [-> ->]. cbn. lia.
      * by rewrite <- app_assoc.
    + exists k. split; [lia|]. by rewrite app_nil_r.
Qed.

(** ** The in-use registry along a sequence of calls *)

Lemma loadSuccess_resourcesInUse (e : engine.flags) (r : ref) (w : World) :
  resourcesInUse (ctl (loadSuccess e r w))
  = <[type (heap w r) := inUseBucket w (type (heap w r)) ++ [r]]>
      (resourcesInUse (ctl w)).
Proof.
  unfold loadSuccess, notifyAllLoaded.
  repeat match goal with |- context [ctl (if ?b then _ else _)] => destruct b end;
    reflexivity.
Qed.

Lemma step_inUseBucket (TEXTURE SOUND : ResType) (e : engine.flags) (c : Call)
    (w : World) (ty : ResType) :
  inUseBucket (step TEXTURE SOUND e c w) ty
  = inUseBucket w ty
    ++ match c with
       | LoadSuccess r => if bool_decide (type (heap w r) = ty) then [r] else []
       | _ => []
       end.
Proof.
  unfold inUseBucket.
  destruct c; cbn [step]; rewrite ?app_nil_r.
  - unfold add. destruct (resources (ctl w) !! type (heap w r)); cbn;
      match goal with |- context [get ?b ?n] => destruct (get b n) end; done.
  - unfold remove. destruct (resources (ctl w) !! type (heap w r)) as [b|]; [|done].
    by destruct (get b (name (heap w r))).
  - unfold addToLoad. by destruct (engine.isReady e).
  - rewrite loadSuccess_resourcesInUse. case_bool_decide as K.
    + subst ty. by rewrite lookup_insert_eq.
    + rewrite lookup_insert_ne by done. by rewrite app_nil_r.
  - unfold loadFailed, notifyAllLoaded.
    repeat match goal with |- context [ctl (if ?b then _ else _)] => destruct b end;
      done.
  - unfold getTexture. by rewrite getNamed_ctl.
  - unfold getSound. by rewrite getNamed_ctl.
  - done.
  - unfold loadNextFromQueue. cbn. destruct (_syncQueue (ctl w)) as [q|]; [|done].
    by destruct (last q).
  - done.
Qed.

Lemma promoted_ext (f g : ref -> ResType) (ty : ResType)
    (tr : list (engine.flags * Call)) :
  (forall r, f r = g r) -> promoted f ty tr = promoted g ty tr.
Proof.
  intros H. induction tr as [|[e c] tr IH]; [done|].
  destruct c; cbn; try done. by rewrite H, IH.
Qed.

(** X12. The in-use registry is append-only and keeps the call order:
    after any sequence of calls the bucket of a type is what it was,
    followed by the handles of that type for which [loadSuccess] was
    called, one entry for each call and in the order of the calls.
    Neither [remove] nor [loadFailed] takes a handle out of it, and a
    handle loaded twice is listed twice. *)
Theorem inUse_registry_is_append_only (TEXTURE SOUND : ResType)
    (tr : list (engine.flags * Call)) (w : World) (ty : ResType) :
  inUseBucket (run TEXTURE SOUND tr w) ty
  = inUseBucket w ty ++ promoted (fun r => type (heap w r)) ty tr.
Proof.
  revert w. induction tr as [|[e c] tr IH]; intros w.
  - cbn. by rewrite app_nil_r.
  - cbn [run]. rewrite IH, step_inUseBucket, <- app_assoc. f_equal.
    rewrite (promoted_ext _ (fun r => type (heap w r))).
    + destruct c; try done. cbn [promoted]. by case_bool_decide.
    + intros r. rewrite step_heap. by destruct (handleAfter_key c r (heap w r)) as [-> _].
Qed.

(** ** The identifier counter along a sequence of calls *)

(** X13. Only [getUniqueID] touches the identifier counter: after any
    sequence of calls it has grown by exactly the number of
    [getUniqueID] calls, so an identifier, once issued, is below every
    identifier issued later, whatever is called in between. *)
Theorem identifiers_are_never_reissued (TEXTURE SOUND : ResType)
    (tr : list (engine.flags * Call)) (w : World) :
  _uniqueID (ctl (run TEXTURE SOUND tr w))
  = _uniqueID (ctl w) + Z.of_nat (identifiersIssued tr)
  /\ fst (getUniqueID w) < fst (getUniqueID (run TEXTURE SOUND tr (snd (getUniqueID w)))).
Proof.
  assert (E : forall v, _uniqueID (ctl (run TEXTURE SOUND tr v))
                        = _uniqueID (ctl v) + Z.of_nat (identifiersIssued tr)).
  { induction tr as [|[e c] tr IH]; intros v; [cbn; lia|].
    cbn [run]. rewrite IH. unfold identifiersIssued. cbn [List.filter snd].
    destruct c; cbn [step isGetUniqueID length].
    - unfold add. destruct (resources (ctl v) !! type (heap v r)); cbn;
        match goal with |- context [get ?b ?n] => destruct (get b n) end; cbn; lia.
    - unfold remove. destruct (resources (ctl v) !! type (heap v r)) as [b|]; cbn;
        [destruct (get b (name (heap v r)))|]; cbn; lia.
    - unfold addToLoad. destruct (engine.isReady e); cbn; lia.
    - unfold loadSuccess, notifyAllLoaded.
      repeat match goal with |- context [ctl (if ?b then _ else _)] => destruct b end;
        cbn; lia.
    - unfold loadFailed, notifyAllLoaded.
      repeat match goal with |- context [ctl (if ?b then _ else _)] => destruct b end;
        cbn; lia.
    - unfold getTexture. rewrite getNamed_ctl. lia.
    - unfold getSound. rewrite getNamed_ctl. lia.
    - cbn. lia.
    - unfold loadNextFromQueue. cbn.
      destruct (_syncQueue (ctl v)) as [q|]; [|cbn; lia].
      destruct (last q); cbn; lia.
    - cbn. lia. }
  split; [apply E|].
  assert (G : forall v, fst (getUniqueID v) = _uniqueID (ctl v) + 1) by done.
  rewrite !G, E.
  change (_uniqueID (ctl (snd (getUniqueID w)))) with (_uniqueID (ctl w) + 1).
  lia.
Qed.

(** ** The queue beyond its end *)

Lemma drain_idle (n : nat) (w : World) :
  queue w = [] ->
  effects (drain n w) = effects w /\ queue (drain n w) = [].
Proof.
  revert w. induction n as [|n IH]; intros w Hq; [done|].
  cbn [drain]. rewrite loadNextFromQueue_idle.
  - apply (IH (upd_ctl (set_isSyncLoading false) w)). exact Hq.
  - unfold queue in Hq. destruct (_syncQueue (ctl w)) as [q|]; [|by left].
    cbn in Hq. subst. by right.
Qed.

Lemma drain_add (a b : nat) (w : World) :
  drain (a + b) w = drain b (drain a w).
Proof. revert w. induction a as [|a IH]; intros w; [done|]. cbn. apply IH. Qed.

(** X14. Calling [loadNextFromQueue] more often than the queue has
    entries is harmless: with at least as many calls as entries, every
    queued handle is force-loaded exactly once, last enqueued first, the
    queue ends empty, and the extra calls load nothing. *)
Theorem draining_past_the_end (n : nat) (w : World) :
  (length (queue w) <= n)%nat ->
  effects (drain n w)
  = effects w ++ map (fun r => ForceLoad r true) (rev (queue w))
  /\ queue (drain n w) = [].
Proof.
  intros Hn.
  replace n with (length (queue w) + (n - length (queue w)))%nat by lia.
  rewrite drain_add.
  destruct (queue w) as [|r q] eqn:Hq.
  - cbn [length drain rev map]. rewrite app_nil_r. by apply drain_idle.
  - assert (Hs : _syncQueue (ctl w) = Some ([] ++ r :: q)).
    { unfold queue in Hq. destruct (_syncQueue (ctl w)); cbn in Hq; by subst. }
    destruct (drain_rev (r :: q) [] w Hs) as [He Hempty].
    specialize (Hempty ltac:(discriminate)).
    destruct (drain_idle (n - length (r :: q)) (drain (length (r :: q)) w)) as [E1 E2].
    { unfold queue. by rewrite Hempty. }
    by rewrite E1, E2, He.
Qed.

Lemma draining_past_the_end_witness :
  let h : ref -> Handle := fun _ => mkHandle 2%N "theme" None false false in
  let w := addToQueue 2%positive (addToQueue 1%positive (init h)) in
  (length (queue w) <= 5)%nat
  /\ effects (drain 5 w) = [ForceLoad 2%positive true; ForceLoad 1%positive true]
  /\ queue (drain 5 w) = [].
Proof.
  intros h w.
  assert (H : (length (queue w) <= 5)%nat) by (cbn; lia).
  split; [exact H|]. exact (draining_past_the_end 5 w H).
Defined.

(** ** Completion of a phase by count *)

Lemma counts_of_starts (adds : list (engine.flags * ref)) :
  Forall (fun a => engine.isReady (fst a) = false) adds ->
  started (map (fun a => (fst a, AddToLoad (snd a))) adds) = length adds
  /\ finished (map (fun a => (fst a, AddToLoad (snd a))) adds) = 0%nat.
Proof.
  induction adds as [|[e r] adds IH]; intros H; [done|].
  apply Forall_cons in H as [Hr H]. cbn in Hr.
  cbn [map fst snd]. rewrite started_cons, finished_cons, Hr.
  by destruct (IH H) as [-> ->].
Qed.

Lemma counts_of_completions (cs : list (engine.flags * (bool * ref))) :
  Forall (fun c => engine.isReady (fst c) = false) cs ->
  let tr := map (fun c => (fst c, completion (fst (snd c)) (snd (snd c)))) cs in
  started tr = 0%nat /\ finished tr = length cs
  /\ Forall (fun x : engine.flags * Call =>
               engine.isReady (fst x) = false /\ isCompletion (snd x) = true) tr.
Proof.
  induction cs as [|[e [ok r]] cs IH]; intros H; [done|].
  apply Forall_cons in H as [Hr H]. cbn in Hr.
  destruct (IH H) as (Hs & Hf & Hall).
  cbn [map fst snd]. rewrite started_cons, finished_cons, Hr, Hs, Hf.
  split; [by destruct ok|]. split; [by destruct ok|].
  constructor; [by destruct ok|exact Hall].
Qed.

(** X15. The accounting counts calls and does not look at handles.  With
    [numToLoad] at 0, after N calls of [addToLoad] the N-th call of
    [loadSuccess] or [loadFailed] fires the notification (all calls made
    while [meta.engine.isReady] is false, [meta.engine.isLoading] false
    at the last one), for whichever handles the completions are
    reported: they need not be the handles that were added, and one
    handle may be reported several times. *)
Theorem phase_completion_counts_calls_only (TEXTURE SOUND : ResType)
    (adds : list (engine.flags * ref))
    (cs : list (engine.flags * (bool * ref)))
    (final : engine.flags * (bool * ref)) (w : World) :
  numToLoad (ctl w) = 0 ->
  Forall (fun a => engine.isReady (fst a) = false) adds ->
  Forall (fun c => engine.isReady (fst c) = false) cs ->
  engine.isReady (fst final) = false ->
  engine.isLoading (fst final) = false ->
  length adds = S (length cs) ->
  let trA := map (fun a => (fst a, AddToLoad (snd a))) adds in
  let trC := map (fun c => (fst c, completion (fst (snd c)) (snd (snd c)))) cs in
  let w1 := run TEXTURE SOUND (trA ++ trC) w in
  phaseComplete (effects w1) = phaseComplete (effects w)
  /\ numToLoad (ctl w1) = 1
  /\ phaseComplete
       (effects (step TEXTURE SOUND (fst final)
                   (completion (fst (snd final)) (snd (snd final))) w1))
     = phaseComplete (effects w) ++ [OnResourcesLoaded; EmitALL_LOADED].
Proof.
  intros H0 HrA HrC Hrf Hlf Hlen trA trC w1.
  destruct (counts_of_starts adds HrA) as [SA FA]. fold trA in SA, FA.
  destruct (counts_of_completions cs HrC) as (SC & FC & HallC). fold trC in SC, FC, HallC.
  assert (HnA : numToLoad (ctl (run TEXTURE SOUND trA w)) = Z.of_nat (length adds)).
  { rewrite run_numToLoad, SA, FA. lia. }
  assert (Hp : phaseComplete (effects w1) = phaseComplete (effects w)).
  { subst w1. rewrite run_app, run_outstanding.
    - apply run_idle. subst trA. apply Forall_map. apply Forall_forall.
      by intros [e r] _.
    - exact HallC.
    - subst trC. rewrite length_map, HnA. lia. }
  assert (Hn : numToLoad (ctl w1) = 1).
  { subst w1. rewrite run_app, run_numToLoad, HnA, SC, FC. lia. }
  split; [exact Hp|]. split; [exact Hn|].
  rewrite step_phase, Hp, Hn, Hrf, Hlf.
  by destruct final as [e [[|] r]].
Qed.

Lemma phase_completion_counts_calls_only_witness :
  let e := engine.mk false false in
  let h : ref -> Handle := fun _ => mkHandle 1%N "hero" None false false in
  let adds := [(e, 1%positive); (e, 2%positive)] in
  let cs := [(e, (false, 7%positive))] in
  (numToLoad (ctl (init h)) = 0
   /\ Forall (fun a => engine.isReady (fst a) = false) adds
   /\ Forall (fun c => engine.isReady (fst c) = false) cs
   /\ length adds = S (length cs))
  /\ phaseComplete
       (effects
          (run 1%N 2%N
             [(e, AddToLoad 1%positive); (e, AddToLoad 2%positive);
              (e, LoadFailed 7%positive); (e, LoadFailed 7%positive)]
             (init h)))
     = [OnResourcesLoaded; EmitALL_LOADED].
Proof.
  intros e h adds cs.
  assert (H2 : Forall (fun a => engine.isReady (fst a) = false) adds)
    by (repeat constructor).
  assert (H3 : Forall (fun c : engine.flags * (bool * ref) =>
                         engine.isReady (fst c) = false) cs)
    by (repeat constructor).
  split; [by repeat split|].
  exact (proj2 (proj2 (phase_completion_counts_calls_only 1%N 2%N adds cs
                         (e, (false, 7%positive)) (init h)
                         eq_refl H2 H3 eq_refl eq_refl eq_refl))).
Defined.

(** ** The derived name *)

Lemma append_same_length (a b c d : string) :
  (a +:+ b = c +:+ d)%string -> String.length a = String.length c ->
  a = c /\ b = d.
Proof.
  revert c. induction a as [|x a IH]; intros [|y c] H Hl; try done.
  rewrite !append_cons_l in H. injection H as -> H. cbn in Hl.
  destruct (IH c H ltac:(lia)) as [-> ->]. done.
Qed.

(** The last dot and the last slash are never at the same place. *)
Lemma last_dot_is_not_last_slash (p : string) :
  0 <= JsString.lastIndexOf "." p ->
  JsString.lastIndexOf "." p <> JsString.lastIndexOf "/" p.
Proof.
  intros Hd Heq.
  destruct (NameSpec.contains "." p) eqn:Cd.
  2: { rewrite (lastIndexOf_absent _ _ Cd) in Hd. lia. }
  destruct (NameSpec.contains "/" p) eqn:Cs.
  2: { rewrite (lastIndexOf_absent _ _ Cs) in Heq. lia. }
  destruct (lastIndexOf_present _ _ Cd) as (pd & ext & Ed & _ & Id).
  destruct (lastIndexOf_present _ _ Cs) as (ps & post & Es & _ & Is).
  rewrite Id, Is in Heq.
  destruct (append_same_length pd (String "." ext) ps (String "/" post)) as [_ H];
    [congruence|lia|discriminate].
Qed.

Lemma lastSegment_has_no_slash (s : string) :
  NameSpec.contains "/" (NameSpec.lastSegment s) = false.
Proof.
  induction s as [|a s IH]; [done|]. cbn [NameSpec.lastSegment].
  destruct (NameSpec.contains "/" s) eqn:C; [done|].
  destruct (Ascii.eqb a "/") eqn:A; [done|]. cbn. by rewrite A, C.
Qed.

Lemma stripExtension_adds_nothing (c : ascii) (s : string) :
  NameSpec.contains c s = false ->
  NameSpec.contains c (NameSpec.stripExtension s) = false.
Proof.
  induction s as [|a s IH]; [done|]. cbn. intros H.
  apply orb_false_iff in H as [Ha Hs].
  destruct (NameSpec.contains "." s).
  - cbn. rewrite Ha. by apply IH.
  - destruct (Ascii.eqb a "."); [done|]. cbn. by rewrite Ha, Hs.
Qed.

(** X16. The name derived from a path, for every path: it is empty when
    the last dot of the path comes before its last slash (a dot in a
    directory and none in the file name), and otherwise it is the last
    segment of the path without its extension, the whole last segment
    when the path has no dot. *)
Theorem deriveName_characterised (p : string) :
  deriveName p
  = if (0 <=? JsString.lastIndexOf "." p)
       && (JsString.lastIndexOf "." p <? JsString.lastIndexOf "/" p)
    then EmptyString
    else NameSpec.derivedName p.
Proof.
  destruct (Z.leb_spec 0 (JsString.lastIndexOf "." p)) as [Hd|Hd]; cbn [andb].
  - destruct (Z.ltb_spec (JsString.lastIndexOf "." p) (JsString.lastIndexOf "/" p))
      as [Hs|Hs].
    + by destruct (deriveName_dot_in_directory p) as [-> _].
    + apply deriveName_follows_rule. right.
      pose proof (last_dot_is_not_last_slash p Hd). lia.
  - apply deriveName_follows_rule. by left.
Qed.

(** X17. A derived name never contains a slash: whatever the path, the
    name [add] computes from it is free of directory separators. *)
Theorem derived_name_has_no_slash (p : string) :
  NameSpec.contains "/" (deriveName p) = false.
Proof.
  destruct (Z.leb_spec 0 (JsString.lastIndexOf "." p)) as [Hd|Hd].
  - destruct (Z.ltb_spec (JsString.lastIndexOf "." p) (JsString.lastIndexOf "/" p))
      as [Hs|Hs].
    + by destruct (deriveName_dot_in_directory p) as [-> _].
    + rewrite deriveName_follows_rule.
      * apply stripExtension_adds_nothing, lastSegment_has_no_slash.
      * right. pose proof (last_dot_is_not_last_slash p Hd). lia.
  - rewrite deriveName_follows_rule by (by left).
    apply stripExtension_adds_nothing, lastSegment_has_no_slash.
Qed.
